(** * nani.manager: translation-aware query sets

    A shallow embedding of [nani/manager.py] (the query-translation layer of
    django-hvad's ancestor) together with the properties its specification
    states about it.

    The Python module defines three classes: [FieldTranslator] (a caching
    dictionary that resolves field names), [TranslationMixin] (the
    translation-aware query set) and [TranslationManager] (the facade bound
    to a model class).  Each becomes a Rocq module of the same name holding
    one definition per method. *)

From Stdlib Require Import ZArith String.
From stdpp Require Import gmap strings list fin_maps.

#[local] Open Scope string_scope.
#[local] Open Scope list_scope.
#[local] Set Warnings "-register-all".

(** ** Python values, exceptions and results *)

(** The values that travel through keyword arguments.  [VInst pk fields] is a
    model instance (an object of the shared model handed over as [master]). *)
Inductive value : Type :=
  | VNone
  | VBool (b : bool)
  | VInt (z : Z)
  | VStr (s : string)
  | VInst (pk : nat) (fields : gmap string value).

(** Python truth value, as tested by [if not language_code] and
    [if self._language_code]. *)
Definition truthy (v : value) : bool :=
  match v with
  | VNone => false
  | VBool b => b
  | VInt z => negb (z =? 0)%Z
  | VStr s => negb (String.eqb s EmptyString)
  | VInst _ _ => true
  end.

(** The exceptions this module raises or lets through.  [ORMError] stands
    for whatever the underlying ORM raises (DoesNotExist,
    MultipleObjectsReturned, FieldError, IndexError, ...). *)
Inductive exn : Type :=
  | AttributeError
  | KeyError
  | RuntimeError (msg : string)
  | NotImplementedError
  | TypeError
  | ORMError (name : string).

Inductive result (A : Type) : Type :=
  | Ok (a : A)
  | Raise (e : exn).
Arguments Ok {A} a.
Arguments Raise {A} e.

(** ** The data the query set works on *)

(** A model class, as far as this module looks at it: the answer of
    [_meta.get_all_field_names()]. *)
Record Model : Type := mkModel
  { db_table : string;
    get_all_field_names : list string }.

(** A plain [models.Manager] bound to a model. *)
Record Manager : Type := mkManager { manager_model : Model }.

(** A saved row: primary key and field values. *)
Record Instance : Type := mkInstance { pk : nat; fields : gmap string value }.

Definition as_value (i : Instance) : value := VInst (pk i) (fields i).

(** The compiled filter tree that [get] inspects.  A child of a where node
    is a leaf, the tuple [(constraint, lookup_type, value)] whose constraint
    names the constrained field ([child[0].field.name]), or a nested where
    node with children of its own.  [query.where.children] ([where] is
    reserved in Rocq, hence [query_where]) is the list of children of the
    root. *)
Record Constraint : Type := mkConstraint { field_name : string }.
Inductive WhereChild : Type :=
  | WhereLeaf (constraint : Constraint) (lookup_type : string) (v : value)
  | WhereNode (children : list WhereChild).
Record Query : Type := mkQuery
  { query_where : list WhereChild;
    select_related_fields : list string;
    ordering : list string }.

(** Object references into the store of field translators. *)
Definition loc : Type := nat.

(** The attributes of a [TranslationMixin] object. *)
Record QuerySet : Type := mkQuerySet
  { model : Model;
    query : Query;
    _local_field_names : option (list string);
    _field_translator : option loc;
    _real_manager : option Manager;
    _language_code : value }.

(** ** FieldTranslator *)

Module FieldTranslator.

(** The object is a [dict] (the cache) with two more attributes.  The
    back-reference [self.manager] is only read by [__init__] and is left
    out. *)
Record t : Type := mk
  { shared_fields : list string;
    translated_fields : list string;
    cache : gmap string string }.

(** [str.startswith] with a tuple argument: some member is a prefix. *)
Definition startswith (key : string) (prefixes : list string) : bool :=
  existsb (fun p => String.prefix p key) prefixes.

Definition build (ft : t) (key : string) : string :=
  if startswith key (shared_fields ft)
  then "master__" +:+ key
  else key.

Definition get (ft : t) (key : string) : string * t :=
  match cache ft !! key with
  | Some v => (v, ft)
  | None =>
      let v := build ft key in
      (v, mk (shared_fields ft) (translated_fields ft) (<[key := v]> (cache ft)))
  end.

End FieldTranslator.

(** ** Filter expressions *)

(** Modelled from the spec: [nani.utils.R] is not among the sources; the
    spec calls it a raw, pass-through expression marker that the rewriter
    must leave untouched.  Only its identity matters here. *)
Inductive R : Type := mkR (raw : list (string * value)).

(** A [Q] object is a tree node: connector, negation flag and children; a
    child is an [R] marker, a nested [Q], or a [(key, value)] pair. *)
Inductive Q : Type :=
  | mkQ (connector : string) (negated : bool) (children : list child)
with child : Type :=
  | CR (r : R)
  | CQ (q : Q)
  | CLeaf (key : string) (v : value).

Definition children (q : Q) : list child :=
  match q with mkQ _ _ cs => cs end.

Definition set_children (q : Q) (cs : list child) : Q :=
  match q with mkQ c n _ => mkQ c n cs end.

(** Nesting depth of a tree: the number of stack frames [_recurse_q] needs. *)
Fixpoint depth (q : Q) : nat :=
  match q with
  | mkQ _ _ cs =>
      S (foldr (fun c acc =>
                  match c with CQ q' => Nat.max (depth q') acc | _ => acc end)
               0 cs)
  end.

(** ** The world: object store, database and ambient settings *)

(** [translators] holds the [FieldTranslator] objects, so that two query
    sets can share one by reference.  [db] is the log of the rows inserted
    so far, oldest first, each with the table it went to.
    [active_language] is what [get_language()] answers, and
    [recursion_limit] the number of nested calls the interpreter allows. *)
Record World : Type := mkWorld
  { translators : gmap loc FieldTranslator.t;
    db : list (string * Instance);
    active_language : string;
    recursion_limit : nat }.

Definition set_translators (w : World) (h : gmap loc FieldTranslator.t) : World :=
  mkWorld h (db w) (active_language w) (recursion_limit w).

Definition set_db (w : World) (d : list (string * Instance)) : World :=
  mkWorld (translators w) d (active_language w) (recursion_limit w).

(** A method runs on a receiver [self] in a world. *)
Record Frame : Type := mkFrame { self : QuerySet; world : World }.

(** ** State and exception monad *)

Definition ST (S A : Type) : Type := S -> result A * S.

#[global] Instance ST_ret {S} : MRet (ST S) :=
  fun A a s => (Ok a, s).

#[global] Instance ST_bind {S} : MBind (ST S) :=
  fun A B k m s =>
    match m s with
    | (Ok a, s') => k a s'
    | (Raise e, s') => (Raise e, s')
    end.

Definition raise {S A} (e : exn) : ST S A := fun s => (Raise e, s).

Abbreviation M := (ST Frame).

Definition get_self : M QuerySet := fun s => (Ok (self s), s).
Definition set_self (q : QuerySet) : M unit :=
  fun s => (Ok tt, mkFrame q (world s)).
Definition get_world : M World := fun s => (Ok (world s), s).
Definition set_world (w : World) : M unit :=
  fun s => (Ok tt, mkFrame (self s) w).

(** Run a computation on the world alone. *)
Definition lift_world {A} (m : ST World A) : M A :=
  fun s => let '(r, w) := m (world s) in (r, mkFrame (self s) w).

(** A call that only reads the world. *)
Definition lift_read {A} (f : World -> result A) : M A :=
  fun s => (f (world s), s).

Definition lift_result {A} (r : result A) : M A := fun s => (r, s).

(** [call_on qs m] is the method call [qs.m(...)] on another object: the
    world is shared, the caller's [self] is untouched, and the callee's
    attribute updates stay with the callee (every caller here rebinds or
    drops it). *)
Definition call_on {A} (qs : QuerySet) (m : M A) : M A :=
  fun s => let '(r, s') := m (mkFrame qs (world s)) in (r, mkFrame (self s) (world s')).

(** A [for] loop that threads an accumulator. *)
Fixpoint foldM {S A B} (f : A -> B -> ST S A) (a : A) (l : list B) : ST S A :=
  match l with
  | [] => mret a
  | x :: l' => a' ← f a x; foldM f a' l'
  end.

(** The same loop where only an exception can interrupt. *)
Fixpoint fold_result {A B} (f : A -> B -> result A) (a : A) (l : list B) : result A :=
  match l with
  | [] => Ok a
  | x :: l' =>
      match f a x with
      | Ok a' => fold_result f a' l'
      | Raise e => Raise e
      end
  end.

(** ** Attribute assignment on query sets *)

Definition set_query (qs : QuerySet) (q : Query) : QuerySet :=
  mkQuerySet (model qs) q (_local_field_names qs) (_field_translator qs)
             (_real_manager qs) (_language_code qs).
Definition set_local_field_names (qs : QuerySet) (v : option (list string)) : QuerySet :=
  mkQuerySet (model qs) (query qs) v (_field_translator qs)
             (_real_manager qs) (_language_code qs).
Definition set_field_translator (qs : QuerySet) (v : option loc) : QuerySet :=
  mkQuerySet (model qs) (query qs) (_local_field_names qs) v
             (_real_manager qs) (_language_code qs).
Definition set_real_manager (qs : QuerySet) (v : option Manager) : QuerySet :=
  mkQuerySet (model qs) (query qs) (_local_field_names qs) (_field_translator qs)
             v (_language_code qs).
Definition set_language_code (qs : QuerySet) (v : value) : QuerySet :=
  mkQuerySet (model qs) (query qs) (_local_field_names qs) (_field_translator qs)
             (_real_manager qs) v.

(** ** The collaborators *)

(** What [qs[item]] may be asked for. *)
Inductive item : Type :=
  | Index (i : Z)
  | Slice (start stop step : option Z).

(** Modelled from the spec: [nani.utils.combine] is not among the sources.
    The spec describes it as merging the shared and the translation
    attributes of a translation row into one logical object that exposes
    every shared field plus every translation field.  The merged object
    remembers the row it was made from; the shared attributes are those of
    the instance stored under [master]. *)
Record Combined : Type := mkCombined
  { source : Instance;
    attributes : gmap string value }.

Definition combine (trans : Instance) : Combined :=
  mkCombined trans
    (match fields trans !! "master" with
     | Some (VInst _ shared) => shared ∪ fields trans
     | _ => fields trans
     end).

(** What a subscript or an iteration step can hand back. *)
Inductive obj : Type :=
  | Raw (row : Instance)
  | Merged (c : Combined)
  | Sliced (rows : list obj).

(** The rows of one table, oldest first. *)
Definition rows_of (table : string) (d : list (string * Instance)) : list Instance :=
  map snd (List.filter (fun r => String.eqb (fst r) table) d).

(** [Manager.create] of the ORM, called with keyword arguments: build the
    instance, insert it into the manager's table under a fresh primary key
    and return it. *)
Module Manager_.

Definition next_pk (table : string) (d : list (string * Instance)) : nat :=
  S (length (rows_of table d)).

Definition create (mgr : Manager) (kwargs : gmap string value) : ST World Instance :=
  fun w =>
    let table := db_table (manager_model mgr) in
    let row := mkInstance (next_pk table (db w)) kwargs in
    (Ok row, set_db w (db w ++ [(table, row)])).

End Manager_.

(** The base [QuerySet] of the ORM, a fixed API.  [QuerySet_clone] is the
    base [_clone]; [add_q], [add_select_related] and [add_ordering] are the
    updates that [filter], [select_related] and [order_by] apply to the
    query of a clone; [QuerySet_get] executes a single-row lookup,
    [QuerySet_iter] gives the rows the executor yields, in its order, and
    [QuerySet_getitem] is the base subscript.  The base subscript works on
    [self], so when it iterates the query set (or a clone of it, which is of
    the same class) it runs the [__iter__] of the subclass; its first
    argument stands for that: what iterating a query set of the class
    yields. *)
Class ORM : Type := mkORM
  { QuerySet_clone : QuerySet -> string -> bool -> gmap string value -> QuerySet;
    add_q : Query -> list Q -> gmap string value -> result Query;
    add_select_related : Query -> list string -> Query;
    add_ordering : Query -> list string -> Query;
    QuerySet_get : QuerySet -> list Q -> gmap string value -> World -> result Instance;
    QuerySet_iter : QuerySet -> World -> list Instance;
    QuerySet_getitem :
      (QuerySet -> World -> list obj) -> QuerySet -> item -> World -> result obj }.

(** ** TranslationMixin *)

Module TranslationMixin.

Section Methods.
Context `{orm : ORM}.

(** The base [__init__] starts from an empty query when none is given. *)
Definition __init__ (model : Model) (query : option Query)
                    (real : option Manager) : QuerySet :=
  mkQuerySet model (default (mkQuery [] [] []) query) None None real VNone.

(** *** Helpers and properties *)

Definition translations_manager : M Manager :=
  s ← get_self; mret (mkManager (model s)).

Definition real_manager : M Manager :=
  s ← get_self;
  match _real_manager s with
  | Some mgr => mret mgr
  | None => raise AttributeError
  end.

Definition shared_model : M Model :=
  mgr ← real_manager; mret (manager_model mgr).

(** [FieldTranslator(self)]: allocate the object and run its [__init__]. *)
Definition new_FieldTranslator : M loc :=
  sm ← shared_model;
  s ← get_self;
  w ← get_world;
  let ft := FieldTranslator.mk (get_all_field_names sm ++ ["pk"])
                               (get_all_field_names (model s)) ∅ in
  let l := fresh (dom (translators w)) in
  _ ← set_world (set_translators w (<[l := ft]> (translators w)));
  mret l.

Definition field_translator : M loc :=
  s ← get_self;
  match _field_translator s with
  | Some l => mret l
  | None =>
      l ← new_FieldTranslator;
      _ ← set_self (set_field_translator s (Some l));
      mret l
  end.

(** [self.field_translator.get(key)] on the stored object.  A reference
    always points at a stored translator; the last branch is there for
    totality and is never taken from a well-formed receiver. *)
Definition field_translator_get (key : string) : M string :=
  l ← field_translator;
  w ← get_world;
  match translators w !! l with
  | Some ft =>
      let '(v, ft') := FieldTranslator.get ft key in
      _ ← set_world (set_translators w (<[l := ft']> (translators w)));
      mret v
  | None => raise AttributeError
  end.

Definition shared_local_field_names : M (list string) :=
  s ← get_self;
  match _local_field_names s with
  | Some names => mret names
  | None =>
      sm ← shared_model;
      let names := get_all_field_names sm in
      _ ← set_self (set_local_field_names s (Some names));
      mret names
  end.

(** [_recurse_q] takes a tree and gives the rewritten tree.  The source
    assigns the new children to [q.children] and returns [q] itself; for a
    tree in which no [Q] object occurs twice that is the same thing.  (An
    object that is reached twice is rewritten again at each visit; the
    second descent into a nested [Q] below is the one case of it that the
    code itself produces.)  [fuel] is the stack that is left. *)
Fixpoint _recurse_q_fuel (fuel : nat) (q : Q) : M Q :=
  match fuel with
  | O => raise (RuntimeError "maximum recursion depth exceeded")
  | S fuel' =>
      newchildren ←
        foldM (fun newchildren child =>
                 match child with
                 | CR _ => mret (newchildren ++ [child])
                 | CQ c =>
                     newq ← _recurse_q_fuel fuel' c;
                     newq' ← _recurse_q_fuel fuel' newq;
                     mret (newchildren ++ [CQ newq'])
                 | CLeaf key value =>
                     key' ← field_translator_get key;
                     mret (newchildren ++ [CLeaf key' value])
                 end)
              [] (children q);
      mret (set_children q newchildren)
  end.

(** The call from outside starts with the whole stack allowance. *)
Definition _recurse_q (q : Q) : M Q :=
  w ← get_world; _recurse_q_fuel (recursion_limit w) q.

Definition _translate (args : list Q) (kwargs : gmap string value)
  : M (list Q * gmap string value) :=
  newkwargs ←
    foldM (fun (newkwargs : gmap string value) '(key, value) =>
             key' ← field_translator_get key;
             mret (<[key' := value]> newkwargs))
          ∅ (map_to_list kwargs);
  newargs ←
    foldM (fun newargs q =>
             q' ← _recurse_q q;
             mret (newargs ++ [q']))
          [] args;
  mret (newargs, newkwargs).

Definition _translate_fieldnames (fieldnames : list string) : M (list string) :=
  foldM (fun newnames name =>
           name' ← field_translator_get name;
           mret (newnames ++ [name']))
        [] fieldnames.

Definition _clone (klass : option string) (setup : bool)
                  (kwargs : gmap string value) : M QuerySet :=
  s ← get_self;
  let cloned := QuerySet_clone s "TranslationMixin" setup kwargs in
  let cloned := set_local_field_names cloned (_local_field_names s) in
  let cloned := set_field_translator cloned (_field_translator s) in
  let cloned := set_language_code cloned (_language_code s) in
  let cloned := set_real_manager cloned (_real_manager s) in
  mret cloned.

(** *** The base-class methods this class reaches through [super] *)

(** [QuerySet.filter]: clone the receiver, then add the predicates to the
    clone's query. *)
Definition QuerySet_filter (args : list Q) (kwargs : gmap string value) : M QuerySet :=
  clone ← _clone None false ∅;
  q ← lift_result (add_q (query clone) args kwargs);
  mret (set_query clone q).

(** [QuerySet.select_related] with field names. *)
Definition QuerySet_select_related (fields : list string) : M QuerySet :=
  clone ← _clone None false ∅;
  mret (set_query clone (add_select_related (query clone) fields)).

(** [QuerySet.order_by]. *)
Definition QuerySet_order_by (field_names : list string) : M QuerySet :=
  clone ← _clone None false ∅;
  mret (set_query clone (add_ordering (query clone) field_names)).

(** *** Queryset/Manager API *)

Definition filter (args : list Q) (kwargs : gmap string value) : M QuerySet :=
  '(newargs, newkwargs) ← _translate args kwargs;
  QuerySet_filter newargs newkwargs.

Definition get_language : M value :=
  w ← get_world; mret (VStr (active_language w)).

Definition language (language_code : value) : M QuerySet :=
  language_code ← (if truthy language_code then mret language_code else get_language);
  s ← get_self;
  _ ← set_self (set_language_code s language_code);
  filter [] {[ "language_code" := language_code ]}.

Definition create (kwargs : gmap string value) : M Combined :=
  '(kwargs, tkwargs) ←
    foldM (fun '(kwargs, tkwargs) key =>
             names ← shared_local_field_names;
             if bool_decide (key ∈ names)
             then mret (kwargs, tkwargs)
             else
               match kwargs !! key with
               | Some v => mret (base.delete key kwargs, <[key := v]> tkwargs)
               | None => raise KeyError
               end)
          (kwargs, (∅ : gmap string value)) (map_to_list kwargs).*1;
  (* enforce a language_code *)
  tkwargs ←
    match tkwargs !! "language_code" with
    | Some _ => mret tkwargs
    | None =>
        s ← get_self;
        if truthy (_language_code s)
        then mret (<["language_code" := _language_code s]> tkwargs)
        else lang ← get_language; mret (<["language_code" := lang]> tkwargs)
    end;
  (* a pre-existing master is allowed, but only without shared fields *)
  tkwargs ←
    match tkwargs !! "master" with
    | Some _ =>
        if negb (Nat.eqb (size kwargs) 0)
        then raise (RuntimeError
          "Cannot explicitly use a master (shared) instance and shared fields in create")
        else mret tkwargs
    | None =>
        mgr ← real_manager;
        shared ← lift_world (Manager_.create mgr kwargs);
        mret (<["master" := as_value shared]> tkwargs)
    end;
  tmgr ← translations_manager;
  trans ← lift_world (Manager_.create tmgr tkwargs);
  mret (combine trans).

(** The scan of [qs.query.where.children] for a [language_code] predicate:
    two nested [for] loops that set [found] and never leave early.  Every
    child of the root is asked for its [children], which a leaf (a tuple)
    does not have, and every grandchild is indexed with [[0]], which a
    nested where node does not support. *)
Definition language_code_found (qs : QuerySet) : result bool :=
  fold_result
    (fun found where_ =>
       match where_ with
       | WhereLeaf _ _ _ => Raise AttributeError
       | WhereNode children =>
           fold_result
             (fun found child =>
                match child with
                | WhereLeaf constraint _ _ =>
                    Ok (if String.eqb (field_name constraint) "language_code"
                        then true else found)
                | WhereNode _ => Raise TypeError
                end)
             found children
       end)
    false (query_where (query qs)).

Definition get (args : list Q) (kwargs : gmap string value) : M Combined :=
  '(newargs, newkwargs) ← _translate args kwargs;
  qs ← QuerySet_select_related ["master"];
  '(qs, newkwargs) ←
    match newkwargs !! "language_code" with
    | Some language_code =>
        qs' ← call_on qs (language language_code);
        mret (qs', base.delete "language_code" newkwargs)
    | None =>
        found ← lift_result (language_code_found qs);
        if found : bool
        then mret (qs, newkwargs)
        else qs' ← call_on qs (language VNone); mret (qs', newkwargs)
    end;
  trans ← lift_read (QuerySet_get qs newargs newkwargs);
  mret (combine trans).

Definition aggregate (args : list value) (kwargs : gmap string value) : M obj :=
  raise NotImplementedError.

Definition latest (field_name : option string) : M obj :=
  raise NotImplementedError.

Definition in_bulk (id_list : list value) : M obj :=
  raise NotImplementedError.

Definition delete : M obj :=
  raise NotImplementedError.

Definition update (kwargs : gmap string value) : M obj :=
  raise NotImplementedError.

Definition values (fields : list string) : M obj :=
  raise NotImplementedError.

Definition values_list (fields : list string) (kwargs : gmap string value) : M obj :=
  raise NotImplementedError.

Definition dates (field_name kind : string) (order : option string) : M obj :=
  raise NotImplementedError.

Definition exclude (args : list Q) (kwargs : gmap string value) : M obj :=
  raise NotImplementedError.

Definition complex_filter (filter_obj : Q) : M obj :=
  raise NotImplementedError.

Definition annotate (args : list value) (kwargs : gmap string value) : M obj :=
  raise NotImplementedError.

Definition order_by (field_names : list string) : M QuerySet :=
  fieldnames ← _translate_fieldnames field_names;
  QuerySet_order_by fieldnames.

Definition reverse : M obj :=
  raise NotImplementedError.

Definition defer (fields : list string) : M obj :=
  raise NotImplementedError.

Definition only (fields : list string) : M obj :=
  raise NotImplementedError.

(** What iterating a query set of this class yields: the items of
    [__iter__] below, one combined instance per row. *)
Definition iterate (qs : QuerySet) (w : World) : list obj :=
  map (fun row => Merged (combine row)) (QuerySet_iter qs w).


(** [__iter__] is a generator function.  Its generator object has not
    entered the body yet, or sits in the [for] loop holding the base
    iterator (the rows still to come), or has returned. *)
Inductive generator : Type :=
  | Created (qs : QuerySet)
  | Looping (base_iter : list Instance)
  | Returned.

Definition __iter__ : M generator :=
  s ← get_self; mret (Created s).

(** One [next()] on the generator: [None] is [StopIteration]. *)
Definition next (g : generator) (w : World) : option Combined * generator :=
  let advance (base_iter : list Instance) :=
    match base_iter with
    | obj :: rest => (Some (combine obj), Looping rest)
    | [] => (None, Returned)
    end in
  match g with
  | Created qs => advance (QuerySet_iter qs w)
  | Looping base_iter => advance base_iter
  | Returned => (None, Returned)
  end.

(** [list(generator)], bounded by the number of [next()] calls allowed. *)
Fixpoint to_list (fuel : nat) (g : generator) (w : World) : option (list Combined) :=
  match fuel with
  | O => None
  | S fuel' =>
      match next g w with
      | (Some c, g') => cons c <$> to_list fuel' g' w
      | (None, _) => Some []
      end
  end.

End Methods.

End TranslationMixin.

(** ** TranslationManager *)

Module TranslationManager.

Record t : Type := mk
  { model : Model;
    translations_model : Model;
    _real_manager : Manager }.

(** [contribute_to_class]: bind to the model and attach the parallel plain
    manager of the shared model.  The translations model is found through
    [model._meta.translations_model]. *)
Definition contribute_to_class (model translations_model : Model) : t :=
  mk model translations_model (mkManager model).

Definition get_query_set (self : t) : QuerySet :=
  TranslationMixin.__init__ (translations_model self) None (Some (_real_manager self)).

Definition language `{orm : ORM} (self : t) (language_code : value) : ST World QuerySet :=
  fun w =>
    let '(r, s) := TranslationMixin.language language_code
                     (mkFrame (get_query_set self) w) in
    (r, world s).

End TranslationManager.

(** ** Specification-level notions *)

(** The cache of a translator only ever holds what [build] answers. *)
Definition cache_ok (ft : FieldTranslator.t) : Prop :=
  ∀ k v, FieldTranslator.cache ft !! k = Some v → v = FieldTranslator.build ft k.

(** The resolution of a name against the shared model's field names. *)
Definition resolve (shared : Model) (key : string) : string :=
  if FieldTranslator.startswith key (get_all_field_names shared ++ ["pk"])
  then "master__" +:+ key
  else key.

(** The rewriter the specification describes: the same tree with every
    leaf key passed through [f] once, raw markers untouched. *)
Fixpoint rewrite_once (f : string -> string) (q : Q) : Q :=
  match q with
  | mkQ c neg cs =>
      mkQ c neg (map (fun ch =>
                        match ch with
                        | CR r => CR r
                        | CQ q' => CQ (rewrite_once f q')
                        | CLeaf k v => CLeaf (f k) v
                        end) cs)
  end.

(** The tree [_recurse_q] computes: a leaf directly under the root is passed
    through [f] [n] times, and the count doubles with every level of
    nesting, because a nested [Q] is recursed into twice. *)
Fixpoint rewrite_n (f : string -> string) (n : nat) (q : Q) : Q :=
  match q with
  | mkQ c neg cs =>
      mkQ c neg (map (fun ch =>
                        match ch with
                        | CR r => CR r
                        | CQ q' => CQ (rewrite_n f (2 * n) q')
                        | CLeaf k v => CLeaf (Nat.iter n f k) v
                        end) cs)
  end.

(** The structure of a tree: everything but the leaf keys. *)
Definition skeleton (q : Q) : Q := rewrite_once (fun _ => EmptyString) q.

(** The raw markers of a tree, in order. *)
Fixpoint markers (q : Q) : list R :=
  match q with
  | mkQ _ _ cs =>
      flat_map (fun ch =>
                  match ch with
                  | CR r => [r]
                  | CQ q' => markers q'
                  | CLeaf _ _ => []
                  end) cs
  end.

(** The [Q] objects of a tree: the root and every nested [Q]. *)
Fixpoint nodes (q : Q) : list Q :=
  match q with
  | mkQ _ _ cs =>
      q :: flat_map (fun ch =>
                       match ch with
                       | CQ q' => nodes q'
                       | CR _ | CLeaf _ _ => []
                       end) cs
  end.

(** A receiver as [TranslationManager.get_query_set] and cloning leave it:
    wired to the manager [mgr] of the shared model, with lazily filled
    caches that agree with that model. *)
Record wf (mgr : Manager) (fr : Frame) : Prop := mk_wf
  { wf_real_manager : _real_manager (self fr) = Some mgr;
    wf_local_field_names :
      ∀ names, _local_field_names (self fr) = Some names →
               names = get_all_field_names (manager_model mgr);
    wf_field_translator :
      ∀ l, _field_translator (self fr) = Some l →
           ∃ ft, translators (world fr) !! l = Some ft ∧
                 FieldTranslator.shared_fields ft
                   = get_all_field_names (manager_model mgr) ++ ["pk"] ∧
                 cache_ok ft }.

(** What resolving names leaves alone: everything but the translator
    reference of the receiver and the translator store. *)
Record same_but_translator (fr fr' : Frame) : Prop := mk_same_but_translator
  { sbt_model : model (self fr') = model (self fr);
    sbt_query : query (self fr') = query (self fr);
    sbt_local_field_names : _local_field_names (self fr') = _local_field_names (self fr);
    sbt_real_manager : _real_manager (self fr') = _real_manager (self fr);
    sbt_language_code : _language_code (self fr') = _language_code (self fr);
    sbt_db : db (world fr') = db (world fr);
    sbt_active_language : active_language (world fr') = active_language (world fr);
    sbt_recursion_limit : recursion_limit (world fr') = recursion_limit (world fr) }.

(** ** What [create] splits its arguments into *)

(** The keyword arguments owned by the shared model, and those owned by the
    translations: a key is shared-owned when it is among the shared model's
    field names. *)
Definition shared_kwargs (names : list string) (kwargs : gmap string value)
  : gmap string value :=
  base.filter (fun kv => kv.1 ∈ names) kwargs.

Definition translated_kwargs (names : list string) (kwargs : gmap string value)
  : gmap string value :=
  base.filter (fun kv => kv.1 ∉ names) kwargs.

(** The language code [create] settles on: the one given, else the scope
    of the query set when it is a true value, else the ambient language. *)
Definition enforced_language_code (tkwargs : gmap string value) (scope : value)
                                  (ambient : string) : value :=
  match tkwargs !! "language_code" with
  | Some v => v
  | None => if truthy scope then scope else VStr ambient
  end.

(** The error [create] raises when a master comes with shared fields. *)
Definition usage_error : exn :=
  RuntimeError
    "Cannot explicitly use a master (shared) instance and shared fields in create".

(** The calls [create] refuses: [master] is among the translation-owned
    arguments and some shared-owned argument is given as well. *)
Definition master_with_shared_fields (names : list string) (kwargs : gmap string value)
  : Prop :=
  is_Some (translated_kwargs names kwargs !! "master") ∧
  shared_kwargs names kwargs ≠ ∅.

(** What calling [shared_local_field_names] leaves alone: everything but
    the cached name list of the receiver. *)
Record same_but_names (fr fr' : Frame) : Prop := mk_same_but_names
  { sbn_model : model (self fr') = model (self fr);
    sbn_query : query (self fr') = query (self fr);
    sbn_field_translator : _field_translator (self fr') = _field_translator (self fr);
    sbn_real_manager : _real_manager (self fr') = _real_manager (self fr);
    sbn_language_code : _language_code (self fr') = _language_code (self fr);
    sbn_world : world fr' = world fr }.

(** ** Shapes of the filter tree *)






(** An ORM that drops a [language_code] keyword before its lookup, and is
    the given one otherwise. *)
Definition strip_language_code (orm : ORM) : ORM :=
  {| QuerySet_clone := QuerySet_clone (ORM := orm);
     add_q := add_q (ORM := orm);
     add_select_related := add_select_related (ORM := orm);
     add_ordering := add_ordering (ORM := orm);
     QuerySet_get qs args kwargs :=
       QuerySet_get (ORM := orm) qs args (base.delete "language_code" kwargs);
     QuerySet_iter := QuerySet_iter (ORM := orm);
     QuerySet_getitem := QuerySet_getitem (ORM := orm) |}.

(** ** The lookup that [get] executes *)

(** The body of [get] up to the call of the base [get]: the query set the
    lookup runs on and the arguments it is given. *)
Definition get_lookup `{orm : ORM} (args : list Q) (kwargs : gmap string value)
  : M (QuerySet * list Q * gmap string value) :=
  '(newargs, newkwargs) ← TranslationMixin._translate args kwargs;
  qs ← TranslationMixin.QuerySet_select_related ["master"];
  '(qs, newkwargs) ←
    match newkwargs !! "language_code" with
    | Some language_code =>
        qs' ← call_on qs (TranslationMixin.language language_code);
        mret (qs', base.delete "language_code" newkwargs)
    | None =>
        found ← lift_result (TranslationMixin.language_code_found qs);
        if found : bool
        then mret (qs, newkwargs)
        else qs' ← call_on qs (TranslationMixin.language VNone); mret (qs', newkwargs)
    end;
  mret (qs, newargs, newkwargs).

(** ** Sample models and a small in-memory ORM

    Concrete models, and a stand-in for the ORM that keeps its rows in the
    insertion log, to run the methods on.  It builds the where tree the way
    the ORM of the time does: every predicate goes into a subtree of its
    own, so a keyword becomes a node holding one leaf and a filter
    expression a node holding such nodes.  It does not check that the names
    are fields, and its lookup does not evaluate the predicates; a subscript
    on a query set that has not been fetched takes the item out of the
    iteration of the query set. *)

Module Demo.

Fixpoint where_of (q : Q) : list WhereChild :=
  match q with
  | mkQ _ _ cs =>
      map (fun ch =>
             match ch with
             | CLeaf key v => WhereNode [WhereLeaf (mkConstraint key) "exact" v]
             | CQ q' => WhereNode (where_of q')
             | CR _ => WhereNode []
             end) cs
  end.

Definition orm : ORM :=
  {| QuerySet_clone s _ _ _ :=
       TranslationMixin.__init__ (model s) (Some (query s)) None;
     add_q q args kwargs :=
       Ok (mkQuery
             (query_where q ++
                map (fun q' => WhereNode (where_of q')) args ++
                map (fun kv => WhereNode [WhereLeaf (mkConstraint (fst kv)) "exact" (snd kv)])
                    (map_to_list kwargs))
             (select_related_fields q) (ordering q));
     add_select_related q fields :=
       mkQuery (query_where q) fields (ordering q);
     add_ordering q names :=
       mkQuery (query_where q) (select_related_fields q) names;
     QuerySet_get qs _ _ w :=
       match rows_of (db_table (model qs)) (db w) with
       | [row] => Ok row
       | [] => Raise (ORMError "DoesNotExist")
       | _ => Raise (ORMError "MultipleObjectsReturned")
       end;
     QuerySet_iter qs w := rows_of (db_table (model qs)) (db w);
     QuerySet_getitem iterate qs it w :=
       match it with
       | Index i =>
           if (i <? 0)%Z then Raise (ORMError "AssertionError")
           else
             match iterate qs w !! Z.to_nat i with
             | Some item => Ok item
             | None => Raise (ORMError "IndexError")
             end
       | Slice _ _ _ => Ok (Sliced (iterate qs w))
       end |}.

(** A shared model with one field of its own, and its translations. *)
Definition Normal : Model :=
  mkModel "app_normal" ["id"; "shared_field"; "translations"].
Definition NormalTranslation : Model :=
  mkModel "app_normal_translation"
          ["id"; "translated_field"; "language_code"; "master"].

(** A shared model whose field [name] is a prefix of the translated field
    [name_local]. *)
Definition City : Model := mkModel "app_city" ["id"; "name"; "translations"].
Definition CityTranslation : Model :=
  mkModel "app_city_translation" ["id"; "name_local"; "language_code"; "master"].

(** A shared model with a field [mast], a prefix of [master__...]. *)
Definition Boat : Model := mkModel "app_boat" ["id"; "mast"; "translations"].
Definition BoatTranslation : Model :=
  mkModel "app_boat_translation" ["id"; "description"; "language_code"; "master"].

(** A shared model with a field [language_code] of its own (the language a
    page was first written in), beside the one of its translations. *)
Definition Page : Model := mkModel "app_page" ["id"; "language_code"; "translations"].
Definition PageTranslation : Model :=
  mkModel "app_page_translation" ["id"; "title"; "language_code"; "master"].

Definition objects (shared translations : Model) : TranslationManager.t :=
  TranslationManager.contribute_to_class shared translations.

(** An empty database, ambient language [en]. *)
Definition world0 : World := mkWorld ∅ [] "en" 1000.

Definition frame0 (shared translations : Model) : Frame :=
  mkFrame (TranslationManager.get_query_set (objects shared translations)) world0.

Definition translator_of (shared translations : Model) : FieldTranslator.t :=
  FieldTranslator.mk (get_all_field_names shared ++ ["pk"])
                     (get_all_field_names translations) ∅.

End Demo.

(** [Q(Q(mast="tall"))]: a leaf one level below the root. *)
Definition nested_mast : Q :=
  mkQ "AND" false [CQ (mkQ "AND" false [CLeaf "mast" (VStr "tall")])].

(** A database with one shared row and its English and German
    translations. *)
Definition sample_shared : Instance :=
  mkInstance 1 {[ "shared_field" := VStr "shared" ]}.
Definition sample_en : Instance :=
  mkInstance 1 {[ "translated_field" := VStr "English";
                  "language_code" := VStr "en";
                  "master" := as_value sample_shared ]}.
Definition sample_de : Instance :=
  mkInstance 2 {[ "translated_field" := VStr "Deutsch";
                  "language_code" := VStr "de";
                  "master" := as_value sample_shared ]}.
Definition sample_world : World :=
  mkWorld ∅ [("app_normal", sample_shared);
             ("app_normal_translation", sample_en);
             ("app_normal_translation", sample_de)] "en" 1000.
Definition sample_frame : Frame :=
  mkFrame (TranslationManager.get_query_set
             (Demo.objects Demo.Normal Demo.NormalTranslation))
          sample_world.


(** Arguments for [create] on [Page]: a title and a language code. *)
Definition kwargs_title_de : gmap string value :=
  {[ "title" := VStr "Hallo"; "language_code" := VStr "de" ]}.

(** Arguments for [create] on the sample model that name the language. *)
Definition kwargs_translated_de : gmap string value :=
  {[ "translated_field" := VStr "y"; "language_code" := VStr "de" ]}.

(** The query set of the sample model on an empty database, scoped to
    German. *)
Definition scoped_frame : Frame :=
  mkFrame (set_language_code
             (TranslationManager.get_query_set
                (Demo.objects Demo.Normal Demo.NormalTranslation))
             (VStr "de"))
          Demo.world0.

(** Arguments for [create]: a given master with a shared field, a given
    master with a translated field only, and both kinds of field without a
    master. *)
Definition kwargs_master_and_shared : gmap string value :=
  {[ "master" := as_value sample_shared; "shared_field" := VStr "x" ]}.
Definition kwargs_shared_and_translated : gmap string value :=
  {[ "shared_field" := VStr "x"; "translated_field" := VStr "y" ]}.

(** A query set built directly, without the manager of the shared model
    ([real] left at its default). *)
Definition unwired_frame : Frame :=
  mkFrame (TranslationMixin.__init__ Demo.NormalTranslation None None) sample_world.

(** A filter on two keywords and on one filter expression, within the
    sample query set. *)
Definition kwargs_filter : gmap string value :=
  {[ "shared_field" := VStr "s"; "translated_field__contains" := VStr "t" ]}.
Definition args_filter : list Q :=
  [mkQ "OR" false [CLeaf "shared_field" (VStr "a"); CR (mkR []);
                   CLeaf "translated_field" (VStr "b")]].


(** Arguments for [create] that name the primary key. *)
Definition kwargs_with_pk : gmap string value :=
  {[ "pk" := VInt 7; "translated_field" := VStr "y" ]}.

(** [Q(Q(shared_field="a"))] on the sample model. *)
Definition nested_shared : Q :=
  mkQ "AND" false [CQ (mkQ "OR" false [CLeaf "shared_field" (VStr "a")])].
(** ** Properties of FieldTranslator *)

(** Closed decidable facts about the sample data. *)
Ltac by_computation := apply (bool_decide_unpack _); vm_compute; exact I.

Section FieldTranslatorFacts.
Import FieldTranslator.

Lemma prefix_refl (s : string) : String.prefix s s = true.
Proof.
  induction s as [|a s IH]; simpl; [done|].
  destruct (Ascii.ascii_dec a a); [exact IH|done].
Qed.

Lemma startswith_true key prefixes :
  startswith key prefixes = true ↔ ∃ p, p ∈ prefixes ∧ String.prefix p key = true.
Proof.
  unfold startswith. rewrite existsb_exists.
  split; intros (p & Hin & Hp); exists p; split; auto; by apply list_elem_of_In.
Qed.

Lemma startswith_false key prefixes :
  startswith key prefixes = false ↔ ∀ p, p ∈ prefixes → String.prefix p key = false.
Proof.
  rewrite <- not_true_iff_false, startswith_true. split.
  - intros Hn p Hin. destruct (String.prefix p key) eqn:E; [|done].
    destruct Hn. eauto.
  - intros Hall (p & Hin & Hp). rewrite (Hall p Hin) in Hp. done.
Qed.

Lemma startswith_member key prefixes : key ∈ prefixes → startswith key prefixes = true.
Proof. intros Hin. apply startswith_true. exists key. split; [done|apply prefix_refl]. Qed.

Lemma cache_ok_empty sf tf : cache_ok (mk sf tf ∅).
Proof. intros k v. simpl. by rewrite lookup_empty. Qed.

Lemma get_value ft key : cache_ok ft → (get ft key).1 = build ft key.
Proof.
  intros Hok. unfold get. destruct (cache ft !! key) as [v|] eqn:E; simpl; [|done].
  by apply Hok.
Qed.

Lemma get_cache_ok ft key : cache_ok ft → cache_ok (get ft key).2.
Proof.
  intros Hok. unfold get. destruct (cache ft !! key) as [v|] eqn:E; simpl; [done|].
  intros k v. unfold build. simpl. rewrite lookup_insert.
  case_decide as Hk; [|apply Hok].
  subst k. by intros [= <-].
Qed.

Lemma get_shared_fields ft key : shared_fields (get ft key).2 = shared_fields ft.
Proof. unfold get. by destruct (cache ft !! key). Qed.

Lemma get_cached ft key : cache (get ft key).2 !! key = Some (get ft key).1.
Proof.
  unfold get. destruct (cache ft !! key) as [v|] eqn:E; simpl; [done|].
  by rewrite lookup_insert_eq.
Qed.

End FieldTranslatorFacts.

(** *** The Field Name Resolver *)

(** C1, as stated, fails: [name_local] is not a field name of the shared
    model [City] (it is a field of the translations only), yet it is resolved
    to [master__name_local], because the shared name [name] is a prefix of
    it. *)
Lemma resolver_translation_only_name_counterexample :
  let ft := Demo.translator_of Demo.City Demo.CityTranslation in
  ("name_local" ∉ FieldTranslator.shared_fields ft) ∧
  ("name_local" ∈ FieldTranslator.translated_fields ft) ∧
  (FieldTranslator.get ft "name_local").1 = "master__name_local" ∧
  (FieldTranslator.get ft "name_local").1 ≠ "name_local".
Proof.
  split_and!; [by_computation | by_computation | reflexivity | discriminate].
Qed.

(** The rule the resolver follows: a name is prefixed with [master__]
    exactly when some shared field name, or [pk], is a prefix of it. *)
Lemma resolver_prefix_rule (ft : FieldTranslator.t) (key : string) :
  cache_ok ft →
  (FieldTranslator.get ft key).1
    = if FieldTranslator.startswith key (FieldTranslator.shared_fields ft)
      then "master__" +:+ key
      else key.
Proof. intros Hok. by rewrite get_value. Qed.

(** C1, amended: for a translator built for the shared model [shared], with
    a cache that only holds its earlier answers, every shared field name [f]
    (the alias [pk] included) is resolved to [master__f]; every name [g]
    that starts with no shared field name (nor with [pk]) comes back
    unchanged; and [pk] always goes to [master__pk]. *)
Theorem resolver_contract (shared : Model) (ft : FieldTranslator.t) (key : string) :
  cache_ok ft →
  FieldTranslator.shared_fields ft = get_all_field_names shared ++ ["pk"] →
  let names := get_all_field_names shared ++ ["pk"] in
  (key ∈ names → (FieldTranslator.get ft key).1 = "master__" +:+ key) ∧
  ((∀ p, p ∈ names → String.prefix p key = false) →
     (FieldTranslator.get ft key).1 = key) ∧
  (FieldTranslator.get ft "pk").1 = "master__pk".
Proof.
  intros Hok Hsf names.
  assert (Hget : ∀ k, (FieldTranslator.get ft k).1
                      = if FieldTranslator.startswith k names
                        then "master__" +:+ k else k).
  { intros k. rewrite resolver_prefix_rule by done. by rewrite Hsf. }
  split_and!.
  - intros Hin. by rewrite Hget, startswith_member.
  - intros Hp. rewrite Hget.
    by rewrite (proj2 (startswith_false key names) Hp).
  - rewrite Hget, startswith_member; [done|]. subst names. set_solver.
Qed.

(** The contract at work on the translator of [Normal], after one name has
    been cached. *)
Lemma resolver_contract_witness :
  let ft := (FieldTranslator.get (Demo.translator_of Demo.Normal Demo.NormalTranslation)
                                 "shared_field").2 in
  cache_ok ft ∧
  (FieldTranslator.get ft "shared_field").1 = "master__shared_field" ∧
  (FieldTranslator.get ft "translated_field").1 = "translated_field" ∧
  (FieldTranslator.get ft "pk").1 = "master__pk".
Proof.
  intros ft.
  assert (Hok : cache_ok ft) by (apply get_cache_ok, cache_ok_empty).
  split; [exact Hok|].
  split_and!.
  - refine (proj1 (resolver_contract Demo.Normal ft "shared_field" Hok eq_refl) _).
    by_computation.
  - refine (proj1 (proj2
      (resolver_contract Demo.Normal ft "translated_field" Hok eq_refl)) _).
    apply Forall_forall. vm_compute. repeat constructor.
  - exact (proj2 (proj2
      (resolver_contract Demo.Normal ft "pk" Hok eq_refl))).
Defined.

(** ** The monad and the lazily built helpers *)

Ltac unfold_monad :=
  unfold mbind, ST_bind, mret, ST_ret, raise, get_self, set_self, get_world,
    set_world, lift_world, lift_read, lift_result, call_on in *.

Lemma bind_run {S A B} (m : ST S A) (k : A → ST S B) s :
  (m ≫= k) s = match m s with
               | (Ok a, s') => k a s'
               | (Raise e, s') => (Raise e, s')
               end.
Proof. reflexivity. Qed.

Lemma bind_ok {S A B} (m : ST S A) (k : A → ST S B) s a s' :
  m s = (Ok a, s') → (m ≫= k) s = k a s'.
Proof. intros H. unfold mbind, ST_bind. by rewrite H. Qed.

Lemma same_but_translator_refl fr : same_but_translator fr fr.
Proof. by constructor. Qed.

Lemma same_but_translator_trans fr1 fr2 fr3 :
  same_but_translator fr1 fr2 → same_but_translator fr2 fr3 →
  same_but_translator fr1 fr3.
Proof. intros [] []. constructor; congruence. Qed.

Section Helpers.
Context `{orm : ORM}.
Import TranslationMixin.

Variable mgr : Manager.
Let shared := manager_model mgr.

Lemma real_manager_spec fr :
  wf mgr fr → real_manager fr = (Ok mgr, fr).
Proof.
  intros Hwf. unfold real_manager. unfold_monad. simpl.
  by rewrite (wf_real_manager _ _ Hwf).
Qed.

Lemma shared_model_spec fr :
  wf mgr fr → shared_model fr = (Ok shared, fr).
Proof.
  intros Hwf. unfold shared_model. unfold_monad.
  by rewrite (real_manager_spec _ Hwf).
Qed.

Lemma field_translator_spec fr :
  wf mgr fr →
  ∃ l fr', field_translator fr = (Ok l, fr') ∧ wf mgr fr' ∧
           same_but_translator fr fr' ∧ _field_translator (self fr') = Some l.
Proof.
  intros Hwf. unfold field_translator. unfold_monad. simpl.
  destruct (_field_translator (self fr)) as [l|] eqn:E.
  - exists l, fr. split_and!; auto using same_but_translator_refl.
  - unfold new_FieldTranslator. unfold_monad.
    rewrite (shared_model_spec _ Hwf). simpl.
    eexists _, _. split; [reflexivity|]. destruct Hwf as [H1 H2 H3].
    split_and!; [constructor; simpl; auto| by constructor | done].
    intros l [= <-]. eexists. rewrite lookup_insert_eq. split; [done|].
    split; [done|]. apply cache_ok_empty.
Qed.

Lemma field_translator_get_spec key fr :
  wf mgr fr →
  ∃ fr', field_translator_get key fr = (Ok (resolve shared key), fr') ∧
         wf mgr fr' ∧ same_but_translator fr fr'.
Proof.
  intros Hwf. unfold field_translator_get.
  destruct (field_translator_spec _ Hwf) as (l & fr1 & Hft & Hwf1 & Hsbt & Hl).
  unfold mbind at 1. unfold ST_bind. rewrite Hft. unfold_monad. simpl.
  destruct (wf_field_translator _ _ Hwf1 _ Hl) as (ft & Hlk & Hsf & Hok).
  rewrite Hlk.
  pose proof (get_value ft key Hok) as Hv.
  pose proof (get_cache_ok ft key Hok) as Hok'.
  pose proof (get_shared_fields ft key) as Hsf'.
  destruct (FieldTranslator.get ft key) as [v ft'] eqn:Eg. simpl in *.
  eexists. split.
  - subst v. unfold FieldTranslator.build, resolve. by rewrite Hsf.
  - destruct Hwf1 as [H1 H2 H3]. destruct Hsbt. split.
    + constructor; simpl; auto.
      intros l' Hl'. rewrite Hl in Hl'. injection Hl' as <-.
      exists ft'. rewrite lookup_insert_eq. split_and!; [done|congruence|done].
    + by constructor.
Qed.

End Helpers.

(** ** Filter-expression trees *)

Lemma depth_child co n cs c : CQ c ∈ cs → depth c < depth (mkQ co n cs).
Proof.
  simpl. induction cs as [|ch cs IH]; [by intros ?%elem_of_nil|].
  intros [<-|Hin]%elem_of_cons; simpl.
  - lia.
  - specialize (IH Hin). destruct ch; lia.
Qed.

Lemma depth_pos q : 0 < depth q.
Proof. destruct q; simpl; lia. Qed.

(** Induction on trees: the property holds of a node when it holds of
    every nested [Q] among its children. *)
Lemma Q_ind_children (P : Q → Prop) :
  (∀ co n cs, (∀ q', CQ q' ∈ cs → P q') → P (mkQ co n cs)) →
  ∀ q, P q.
Proof.
  intros Hstep q.
  remember (depth q) as d eqn:Hd.
  revert q Hd. induction d as [d IH] using lt_wf_ind. intros [co n cs] ->.
  apply Hstep. intros q' Hin. eapply IH; [|reflexivity].
  by apply depth_child.
Qed.

Lemma rewrite_n_compose f a b q :
  rewrite_n f a (rewrite_n f b q) = rewrite_n f (a + b) q.
Proof.
  revert a b. induction q as [co n cs IH] using Q_ind_children. intros a b.
  simpl. f_equal. rewrite map_map. apply map_ext_in.
  intros [r|q'|k v] Hin%list_elem_of_In; [done| |].
  - rewrite IH by done. do 2 f_equal. lia.
  - by rewrite Nat.iter_add.
Qed.

Lemma rewrite_n_depth f a q : depth (rewrite_n f a q) = depth q.
Proof.
  revert a. induction q as [co n cs IH] using Q_ind_children. intros a.
  simpl. f_equal.
  induction cs as [|ch cs IHcs]; [done|]. simpl.
  rewrite IHcs by (intros; apply IH; set_solver).
  destruct ch as [r|q'|k v]; [done| |done].
  rewrite IH by set_solver. done.
Qed.

Lemma rewrite_n_skeleton f a q : skeleton (rewrite_n f a q) = skeleton q.
Proof.
  unfold skeleton.
  revert a. induction q as [co n cs IH] using Q_ind_children. intros a.
  simpl. f_equal. rewrite map_map. apply map_ext_in.
  intros [r|q'|k v] Hin%list_elem_of_In; [done| |done].
  by rewrite IH.
Qed.

Lemma rewrite_n_markers f a q : markers (rewrite_n f a q) = markers q.
Proof.
  revert a. induction q as [co n cs IH] using Q_ind_children. intros a.
  simpl. induction cs as [|ch cs IHcs]; [done|]. simpl.
  rewrite IHcs by (intros; apply IH; set_solver).
  destruct ch as [r|q'|k v]; [done| |done].
  by rewrite IH by set_solver.
Qed.

(** When resolving twice is the same as resolving once, the double descent
    is harmless and the code agrees with the specified rewriter. *)
Lemma rewrite_n_idempotent f q :
  (∀ k, f (f k) = f k) → ∀ a, 0 < a → rewrite_n f a q = rewrite_once f q.
Proof.
  intros Hf. induction q as [co n cs IH] using Q_ind_children. intros a Ha.
  simpl. f_equal. apply map_ext_in.
  intros [r|q'|k v] Hin%list_elem_of_In; [done| |].
  - rewrite IH by (done || lia). done.
  - f_equal. clear -Hf Ha. induction a as [|a IHa]; [lia|].
    destruct a as [|a]; [done|]. simpl in *. rewrite Hf. apply IHa. lia.
Qed.

Section Rewriter.
Context `{orm : ORM}.
Import TranslationMixin.

Variable mgr : Manager.
Let shared := manager_model mgr.

Lemma _recurse_q_fuel_spec (fuel : nat) :
  ∀ q fr, wf mgr fr → (depth q ≤ fuel)%nat →
  ∃ fr', _recurse_q_fuel fuel q fr = (Ok (rewrite_n (resolve shared) 1 q), fr') ∧
         wf mgr fr' ∧ same_but_translator fr fr'.
Proof.
  induction fuel as [|fuel IH]; intros q fr Hwf Hd.
  { pose proof (depth_pos q). lia. }
  cbn [_recurse_q_fuel].
  match goal with |- context [foldM ?b [] _] => set (body := b) end.
  assert (Hloop : ∀ cs acc fr0, wf mgr fr0 →
            (∀ c, CQ c ∈ cs → (depth c ≤ fuel)%nat) →
            ∃ fr', foldM body acc cs fr0
                   = (Ok (acc ++ map (fun ch =>
                            match ch with
                            | CR r => CR r
                            | CQ q' => CQ (rewrite_n (resolve shared) 2 q')
                            | CLeaf k v => CLeaf (resolve shared k) v
                            end) cs), fr') ∧
                   wf mgr fr' ∧ same_but_translator fr0 fr').
  { induction cs as [|ch cs IHcs]; intros acc fr0 Hwf0 Hcs.
    - exists fr0. simpl. rewrite app_nil_r. auto using same_but_translator_refl.
    - cbn [foldM]. unfold mbind at 1. unfold ST_bind.
      assert (∃ fr1, body acc ch fr0
                = (Ok (acc ++ [match ch with
                               | CR r => CR r
                               | CQ q' => CQ (rewrite_n (resolve shared) 2 q')
                               | CLeaf k v => CLeaf (resolve shared k) v
                               end]), fr1) ∧
                wf mgr fr1 ∧ same_but_translator fr0 fr1)
        as (fr1 & -> & Hwf1 & Hs1).
      { subst body. destruct ch as [r|c|k v]; cbn beta iota.
        - exists fr0. auto using same_but_translator_refl.
        - assert (depth c ≤ fuel)%nat as Hc by (apply Hcs; set_solver).
          destruct (IH c fr0 Hwf0 Hc) as (fra & Ha & Hwfa & Hsa).
          unfold mbind at 1. unfold ST_bind. rewrite Ha.
          destruct (IH (rewrite_n (resolve shared) 1 c) fra Hwfa) as (frb & Hb & Hwfb & Hsb).
          { by rewrite rewrite_n_depth. }
          unfold mbind at 1. unfold ST_bind. rewrite Hb.
          rewrite rewrite_n_compose. exists frb.
          eauto using same_but_translator_trans.
        - destruct (field_translator_get_spec mgr k fr0 Hwf0) as (fra & Ha & Hwfa & Hsa).
          unfold mbind at 1. unfold ST_bind. rewrite Ha. eauto. }
      destruct (IHcs (acc ++ [match ch with
                               | CR r => CR r
                               | CQ q' => CQ (rewrite_n (resolve shared) 2 q')
                               | CLeaf k v => CLeaf (resolve shared k) v
                               end]) fr1 Hwf1) as (fr2 & -> & Hwf2 & Hs2).
      { intros c Hc. apply Hcs. set_solver. }
      exists fr2. rewrite <- app_assoc. simpl.
      eauto using same_but_translator_trans. }
  destruct q as [co n cs].
  destruct (Hloop cs [] fr Hwf) as (fr' & Hf & Hwf' & Hs').
  { intros c Hc. pose proof (depth_child co n cs c Hc). lia. }
  exists fr'. unfold mbind at 1. unfold ST_bind. simpl children. rewrite Hf.
  simpl. auto.
Qed.

End Rewriter.

(** *** The Expression Rewriter *)

Section RewriterFacts.
Context `{orm : ORM}.
Import TranslationMixin.

(** What [_recurse_q] returns on every tree that fits the interpreter's
    stack: the same structure, raw markers as they were, and each leaf key
    resolved once for a leaf of the root, twice one level down, four times
    two levels down, and so on. *)
Lemma _recurse_q_spec (mgr : Manager) (q : Q) (fr : Frame) :
  wf mgr fr → (depth q ≤ recursion_limit (world fr))%nat →
  ∃ fr', _recurse_q q fr = (Ok (rewrite_n (resolve (manager_model mgr)) 1 q), fr') ∧
         wf mgr fr' ∧ same_but_translator fr fr' ∧
         skeleton (rewrite_n (resolve (manager_model mgr)) 1 q) = skeleton q ∧
         markers (rewrite_n (resolve (manager_model mgr)) 1 q) = markers q.
Proof.
  intros Hwf Hd. unfold _recurse_q. unfold_monad.
  destruct (_recurse_q_fuel_spec mgr _ q fr Hwf Hd) as (fr' & -> & Hwf' & Hs).
  exists fr'. split_and!; auto using rewrite_n_skeleton, rewrite_n_markers.
Qed.

(** Where resolving a resolved name changes nothing, the code computes the
    rewriter of the specification. *)
Lemma _recurse_q_idempotent_case (mgr : Manager) (q : Q) (fr : Frame) :
  wf mgr fr → (depth q ≤ recursion_limit (world fr))%nat →
  (∀ k, resolve (manager_model mgr) (resolve (manager_model mgr) k)
        = resolve (manager_model mgr) k) →
  (_recurse_q q fr).1 = Ok (rewrite_once (resolve (manager_model mgr)) q).
Proof.
  intros Hwf Hd Hidem.
  destruct (_recurse_q_spec mgr q fr Hwf Hd) as (fr' & -> & _).
  simpl. by rewrite rewrite_n_idempotent by (done || lia).
Qed.

End RewriterFacts.

(** C2: the code departs from the claim on a nested leaf.  The shared model
    [Boat] has a field [mast]; on [Q(Q(mast="tall"))] the nested leaf is
    resolved twice and comes out as [master__master__mast], while one pass
    through the resolver gives [master__mast].  The second pass also shows
    in the translator's cache, which ends up holding the already resolved
    name [master__mast] as a key. *)
Theorem _recurse_q_resolves_nested_leaf_twice :
  let fr := Demo.frame0 Demo.Boat Demo.BoatTranslation in
  let out := TranslationMixin._recurse_q nested_mast fr in
  out.1 = Ok (mkQ "AND" false
                [CQ (mkQ "AND" false [CLeaf "master__master__mast" (VStr "tall")])]) ∧
  rewrite_once (resolve Demo.Boat) nested_mast
    = mkQ "AND" false [CQ (mkQ "AND" false [CLeaf "master__mast" (VStr "tall")])] ∧
  (∃ l ft, _field_translator (self out.2) = Some l ∧
           translators (world out.2) !! l = Some ft ∧
           FieldTranslator.cache ft !! "master__mast" = Some "master__master__mast").
Proof.
  split_and!.
  - vm_compute. reflexivity.
  - vm_compute. reflexivity.
  - eexists _, _. split_and!; vm_compute; reflexivity.
Qed.

(** *** Unsupported operations, cloning, iteration and indexing *)

Section QuerySetFacts.
Context `{orm : ORM}.
Import TranslationMixin.

(** C7: each of the fourteen unsupported operations raises
    [NotImplementedError] whatever its arguments, and leaves the receiver
    and the world as they were. *)
Theorem unsupported_operations_raise
    (fr : Frame) (vs : list value) (qs : list Q) (q : Q)
    (kwargs : gmap string value) (names : list string)
    (field_name : option string) (name kind : string) (order : option string) :
  aggregate vs kwargs fr = (Raise NotImplementedError, fr) ∧
  latest field_name fr = (Raise NotImplementedError, fr) ∧
  in_bulk vs fr = (Raise NotImplementedError, fr) ∧
  delete fr = (Raise NotImplementedError, fr) ∧
  update kwargs fr = (Raise NotImplementedError, fr) ∧
  values names fr = (Raise NotImplementedError, fr) ∧
  values_list names kwargs fr = (Raise NotImplementedError, fr) ∧
  dates name kind order fr = (Raise NotImplementedError, fr) ∧
  exclude qs kwargs fr = (Raise NotImplementedError, fr) ∧
  complex_filter q fr = (Raise NotImplementedError, fr) ∧
  annotate vs kwargs fr = (Raise NotImplementedError, fr) ∧
  reverse fr = (Raise NotImplementedError, fr) ∧
  defer names fr = (Raise NotImplementedError, fr) ∧
  only names fr = (Raise NotImplementedError, fr).
Proof. repeat split. Qed.

(** C8: the clone carries the receiver's cached field-name list, its field
    translator (the same reference: no translator is allocated and the store
    is untouched), its language scope and its shared-record manager; the
    rest of the clone is what the base [_clone] made. *)
Theorem _clone_propagates
    (klass : option string) (setup : bool) (kwargs : gmap string value) (fr : Frame) :
  ∃ cloned,
    _clone klass setup kwargs fr = (Ok cloned, fr) ∧
    _local_field_names cloned = _local_field_names (self fr) ∧
    _field_translator cloned = _field_translator (self fr) ∧
    _language_code cloned = _language_code (self fr) ∧
    _real_manager cloned = _real_manager (self fr) ∧
    model cloned = model (QuerySet_clone (self fr) "TranslationMixin" setup kwargs) ∧
    query cloned = query (QuerySet_clone (self fr) "TranslationMixin" setup kwargs).
Proof. eexists. split; [reflexivity|]. by repeat split. Qed.

(** A name resolved through the clone lands in the translator the original
    refers to. *)
Lemma _clone_shares_cache mgr klass setup kwargs fr cloned l key :
  wf mgr fr → _field_translator (self fr) = Some l →
  (_clone klass setup kwargs fr).1 = Ok cloned →
  ∃ fr' ft,
    call_on cloned (field_translator_get key) fr
      = (Ok (resolve (manager_model mgr) key), fr') ∧
    self fr' = self fr ∧
    translators (world fr') !! l = Some ft ∧
    FieldTranslator.cache ft !! key = Some (resolve (manager_model mgr) key).
Proof.
  intros Hwf Hl [= <-].
  unfold call_on, field_translator_get, field_translator.
  unfold_monad. cbn. rewrite Hl. cbn.
  destruct (wf_field_translator _ _ Hwf _ Hl) as (ft & Hlk & Hsf & Hok).
  rewrite Hlk.
  pose proof (get_value ft key Hok) as Hv.
  pose proof (get_cached ft key) as Hc.
  destruct (FieldTranslator.get ft key) as [v ft'] eqn:Eg. cbn in *.
  exists (mkFrame (self fr)
            (set_translators (world fr) (<[l:=ft']> (translators (world fr))))), ft'.
  split_and!; [|done| |].
  - subst v. unfold FieldTranslator.build, resolve. by rewrite Hsf.
  - cbn. by rewrite lookup_insert_eq.
  - rewrite Hc, Hv. unfold FieldTranslator.build, resolve. by rewrite Hsf.
Qed.

Lemma to_list_looping (rows : list Instance) (w : World) (fuel : nat) :
  (length rows < fuel)%nat →
  to_list fuel (Looping rows) w = Some (map combine rows).
Proof.
  revert fuel. induction rows as [|row rows IH]; intros [|fuel] Hlt;
    simpl in *; try lia; [done|].
  rewrite IH by lia. done.
Qed.

(** C9: iterating yields exactly one combined instance per row that the
    underlying query yields, in the executor's order: as long as [next()]
    may be called once more than there are rows, the generator delivers
    [combine] of the first row, of the second row, and so on, and then
    stops. *)
Theorem __iter__yields_one_combined_per_row (fr : Frame) (fuel : nat) :
  let rows := QuerySet_iter (self fr) (world fr) in
  (length rows < fuel)%nat →
  ∃ g items,
    __iter__ fr = (Ok g, fr) ∧
    to_list fuel g (world fr) = Some items ∧
    length items = length rows ∧
    (∀ i row, rows !! i = Some row →
       items !! i = Some (combine row) ∧ source (combine row) = row).
Proof.
  intros rows Hlt. exists (Created (self fr)), (map combine rows).
  split; [reflexivity|]. split_and!.
  - destruct fuel as [|fuel]; [lia|]. simpl. fold rows.
    destruct rows as [|row rows']; [done|].
    simpl in Hlt. rewrite to_list_looping by lia. done.
  - by rewrite length_map.
  - intros i row Hi. rewrite list_lookup_fmap, Hi. done.
Qed.


End QuerySetFacts.

(** Iterating the sample query set: two rows, two combined instances. *)
Lemma __iter__yields_one_combined_per_row_witness :
  (length (QuerySet_iter (ORM := Demo.orm) (self sample_frame) (world sample_frame)) < 3)%nat ∧
  ∃ g items,
    TranslationMixin.__iter__ sample_frame = (Ok g, sample_frame) ∧
    TranslationMixin.to_list (orm := Demo.orm) 3 g sample_world = Some items ∧
    length items = 2%nat ∧
    items !! 1%nat = Some (combine sample_de).
Proof.
  assert (Hlt : (length (QuerySet_iter (ORM := Demo.orm) (self sample_frame)
                           (world sample_frame)) < 3)%nat)
    by (vm_compute; lia).
  split; [exact Hlt|].
  destruct (__iter__yields_one_combined_per_row (orm := Demo.orm) sample_frame 3 Hlt)
    as (g & items & Hg & Hitems & Hlen & Hrows).
  exists g, items. split_and!; [exact Hg|exact Hitems|exact Hlen|].
  exact (proj1 (Hrows 1%nat sample_de eq_refl)).
Defined.



(** *** create *)

Lemma same_but_names_refl fr : same_but_names fr fr.
Proof. by constructor. Qed.

Lemma same_but_names_trans fr1 fr2 fr3 :
  same_but_names fr1 fr2 → same_but_names fr2 fr3 → same_but_names fr1 fr3.
Proof. intros [] []. constructor; congruence. Qed.

Ltac decide_cases :=
  repeat match goal with
         | |- context [decide ?P] => destruct (decide P)
         end;
  first [done | exfalso; rewrite ?elem_of_cons in *; intuition congruence].

Section CreateFacts.
Context `{orm : ORM}.
Import TranslationMixin.

Variable mgr : Manager.
Let shared := manager_model mgr.
Let names := get_all_field_names shared.

Lemma shared_local_field_names_spec fr :
  wf mgr fr →
  ∃ fr', shared_local_field_names fr = (Ok names, fr') ∧
         wf mgr fr' ∧ same_but_names fr fr'.
Proof.
  intros Hwf. unfold shared_local_field_names. unfold_monad. cbn.
  destruct (_local_field_names (self fr)) as [ns|] eqn:E.
  - exists fr. rewrite (wf_local_field_names _ _ Hwf ns E).
    auto using same_but_names_refl.
  - rewrite (shared_model_spec mgr fr Hwf). cbn.
    eexists. split; [reflexivity|]. destruct Hwf as [H1 H2 H3].
    split; constructor; cbn; auto. by intros ? [= <-].
Qed.

(** The loop that moves the translation-owned keys out of [kwargs]. *)
Lemma create_split_loop (ks : list string) :
  ∀ (kw tk : gmap string value) fr,
    wf mgr fr → NoDup ks → (∀ k, k ∈ ks → is_Some (kw !! k)) →
    ∃ kw' tk' fr',
      foldM (fun '(kwargs, tkwargs) key =>
               ns ← shared_local_field_names;
               if bool_decide (key ∈ ns)
               then mret (kwargs, tkwargs)
               else
                 match kwargs !! key with
                 | Some v => mret (base.delete key kwargs, <[key := v]> tkwargs)
                 | None => raise KeyError
                 end)
            (kw, tk) ks fr
        = (Ok (kw', tk'), fr') ∧
      wf mgr fr' ∧ same_but_names fr fr' ∧
      (∀ k, kw' !! k = if decide (k ∈ ks ∧ k ∉ names) then None else kw !! k) ∧
      (∀ k, tk' !! k = if decide (k ∈ ks ∧ k ∉ names) then kw !! k else tk !! k).
Proof.
  induction ks as [|key ks IH]; intros kw tk fr Hwf Hnd Hks.
  - exists kw, tk, fr. split; [done|].
    split_and!; auto using same_but_names_refl;
      intros k; case_decide as Hk; try done; destruct Hk as [?%elem_of_nil _]; done.
  - apply NoDup_cons in Hnd as [Hkey Hnd].
    cbn [foldM]. unfold mbind at 1. unfold ST_bind.
    destruct (shared_local_field_names_spec fr Hwf) as (fr1 & Hn & Hwf1 & Hs1).
    unfold mbind at 1. unfold ST_bind. rewrite Hn.
    case_bool_decide as Hin.
    + unfold mret at 1. unfold ST_ret.
      destruct (IH kw tk fr1 Hwf1 Hnd) as (kw' & tk' & fr' & Hrun & Hwf' & Hs' & Hkw & Htk).
      { intros k Hk. apply Hks. set_solver. }
      exists kw', tk', fr'. split; [exact Hrun|].
      split_and!; eauto using same_but_names_trans.
      * intros k. rewrite Hkw. decide_cases.
      * intros k. rewrite Htk. decide_cases.
    + destruct (Hks key) as [v Hv]; [set_solver|]. rewrite Hv.
      unfold mret at 1. unfold ST_ret.
      destruct (IH (base.delete key kw) (<[key:=v]> tk) fr1 Hwf1 Hnd)
        as (kw' & tk' & fr' & Hrun & Hwf' & Hs' & Hkw & Htk).
      { intros k Hk. rewrite lookup_delete_ne by set_solver. apply Hks. set_solver. }
      exists kw', tk', fr'. split; [exact Hrun|].
      split_and!; eauto using same_but_names_trans.
      * intros k. rewrite Hkw. destruct (decide (k = key)) as [->|Hne].
        -- rewrite lookup_delete_eq. decide_cases.
        -- rewrite lookup_delete_ne by done.
           decide_cases.
      * intros k. rewrite Htk. destruct (decide (k = key)) as [->|Hne].
        -- rewrite lookup_insert_eq. decide_cases.
        -- rewrite lookup_delete_ne, lookup_insert_ne by done.
           decide_cases.
Qed.

Lemma create_split (kwargs : gmap string value) fr :
  wf mgr fr →
  ∃ fr',
    foldM (fun '(kwargs, tkwargs) key =>
             ns ← shared_local_field_names;
             if bool_decide (key ∈ ns)
             then mret (kwargs, tkwargs)
             else
               match kwargs !! key with
               | Some v => mret (base.delete key kwargs, <[key := v]> tkwargs)
               | None => raise KeyError
               end)
          (kwargs, ∅) (map_to_list kwargs).*1 fr
      = (Ok (shared_kwargs names kwargs, translated_kwargs names kwargs), fr') ∧
    wf mgr fr' ∧ same_but_names fr fr'.
Proof.
  intros Hwf.
  assert (Hdom : ∀ k, k ∈ (map_to_list kwargs).*1 ↔ is_Some (kwargs !! k)).
  { intros k. rewrite list_elem_of_fmap. split.
    - intros ([k' v] & -> & Hin%elem_of_map_to_list). by exists v.
    - intros [v Hv]. exists (k, v). split; [done|]. by apply elem_of_map_to_list. }
  destruct (create_split_loop _ kwargs ∅ fr Hwf (NoDup_fst_map_to_list kwargs))
    as (kw' & tk' & fr' & Hrun & Hwf' & Hs' & Hkw & Htk).
  { intros k. apply Hdom. }
  exists fr'. split; [|done]. rewrite Hrun. do 3 f_equal.
  - apply map_eq. intros k. rewrite Hkw. unfold shared_kwargs.
    apply option_eq. intros v. rewrite map_lookup_filter_Some. cbn.
    case_decide as Hk.
    + split; [done|]. intros [_ Hin]. by destruct Hk.
    + split.
      * intros Hv. split; [done|].
        destruct (decide (k ∈ names)); [done|]. destruct Hk. split; [|done].
        apply Hdom. by exists v.
      * by intros [? _].
  - apply map_eq. intros k. rewrite Htk. unfold translated_kwargs.
    apply option_eq. intros v. rewrite map_lookup_filter_Some. cbn.
    case_decide as Hk.
    + split; [|by intros [? _]]. intros Hv. split; [done|]. by destruct Hk.
    + rewrite lookup_empty. split; [done|]. intros [Hv Hnin]. destruct Hk.
      split; [|done]. apply Hdom. by exists v.
Qed.

(** What [create] does, in full.  The arguments are split by ownership, the
    language code is enforced on the translation side, and then either a
    given [master] is used (an error if shared-owned arguments came with
    it) or a shared row is inserted first. *)
Lemma create_spec (kwargs : gmap string value) fr :
  wf mgr fr →
  let kw := shared_kwargs names kwargs in
  let tk := translated_kwargs names kwargs in
  let tk1 := <["language_code" :=
                 enforced_language_code tk (_language_code (self fr))
                                        (active_language (world fr))]> tk in
  let w := world fr in
  let stable := db_table shared in
  let ttable := db_table (model (self fr)) in
  ∃ fr1, wf mgr fr1 ∧ same_but_names fr fr1 ∧
    create kwargs fr =
      match tk !! "master" with
      | Some _ =>
          if negb (Nat.eqb (size kw) 0)
          then (Raise (RuntimeError
                  "Cannot explicitly use a master (shared) instance and shared fields in create"),
                fr1)
          else
            let trans := mkInstance (Manager_.next_pk ttable (db w)) tk1 in
            (Ok (combine trans),
             mkFrame (self fr1) (set_db w (db w ++ [(ttable, trans)])))
      | None =>
          let row := mkInstance (Manager_.next_pk stable (db w)) kw in
          let db1 := db w ++ [(stable, row)] in
          let trans := mkInstance (Manager_.next_pk ttable db1)
                                  (<["master" := as_value row]> tk1) in
          (Ok (combine trans),
           mkFrame (self fr1) (set_db w (db1 ++ [(ttable, trans)])))
      end.
Proof.
  intros Hwf kw tk tk1 w stable ttable.
  destruct (create_split kwargs fr Hwf) as (fr1 & Hsplit & Hwf1 & Hs1).
  exists fr1. split; [done|]. split; [done|].
  unfold create. rewrite (bind_ok _ _ _ _ _ Hsplit). fold kw tk.
  destruct Hs1 as [Hm Hq Hft Hrm Hlc Hw].
  assert (Htk1 : (match tk !! "language_code" with
                  | Some _ => mret tk
                  | None =>
                      s ← get_self;
                      if truthy (_language_code s)
                      then mret (<["language_code" := _language_code s]> tk)
                      else lang ← get_language;
                           mret (<["language_code" := lang]> tk)
                  end) fr1 = (Ok tk1, fr1)).
  { subst tk1. unfold enforced_language_code.
    destruct (tk !! "language_code") as [v|] eqn:E.
    - by rewrite insert_id.
    - unfold get_language. unfold_monad. cbn. rewrite Hlc.
      destruct (truthy (_language_code (self fr))); cbn; by rewrite ?Hw. }
  rewrite (bind_ok _ _ _ _ _ Htk1).
  assert (Hmaster : tk1 !! "master" = tk !! "master").
  { subst tk1. by rewrite lookup_insert_ne. }
  rewrite Hmaster.
  destruct (tk !! "master") as [m|] eqn:Em.
  - destruct (negb (Nat.eqb (size kw) 0)).
    + reflexivity.
    + unfold translations_manager, Manager_.create. unfold_monad. cbn.
      rewrite Hw, Hm. reflexivity.
  - rewrite bind_run. rewrite (bind_ok _ _ _ _ _ (real_manager_spec mgr fr1 Hwf1)).
    unfold translations_manager, Manager_.create. unfold_monad. cbn.
    rewrite Hw, Hm. reflexivity.
Qed.

End CreateFacts.

Lemma get_query_set_wf (shared translations : Model) (w : World) :
  wf (mkManager shared)
     (mkFrame (TranslationManager.get_query_set
                 (TranslationManager.contribute_to_class shared translations)) w).
Proof. constructor; cbn; [done|done|done]. Qed.

Section CreateClaims.
Import TranslationMixin.

Variable mgr : Manager.
Let shared := manager_model mgr.
Let names := get_all_field_names shared.


(** C4: without a [master] among the arguments, [create] inserts exactly
    two rows, in this order: a shared row carrying the shared-owned
    arguments, then a translation row carrying the translation-owned
    arguments, the enforced language code and [master] pointing at the new
    shared row.  It returns the combined instance of that translation row,
    which exposes every argument given, shared or translated. *)
Theorem create_without_master (kwargs : gmap string value) (fr : Frame) :
  wf mgr fr →
  kwargs !! "master" = None →
  ∃ row trans fr',
    create kwargs fr = (Ok (combine trans), fr') ∧
    db (world fr')
      = db (world fr) ++ [(db_table shared, row);
                          (db_table (model (self fr)), trans)] ∧
    fields row = shared_kwargs names kwargs ∧
    fields trans
      = <["master" := as_value row]>
          (<["language_code" :=
               enforced_language_code (translated_kwargs names kwargs)
                 (_language_code (self fr)) (active_language (world fr))]>
             (translated_kwargs names kwargs)) ∧
    (∀ k v, k ∉ names → kwargs !! k = Some v → fields trans !! k = Some v) ∧
    source (combine trans) = trans ∧
    (∀ k v, kwargs !! k = Some v → attributes (combine trans) !! k = Some v).
Proof.
  intros Hwf Hm.
  destruct (create_spec mgr kwargs fr Hwf) as (fr1 & Hwf1 & Hs1 & Hcreate).
  fold shared names in Hcreate. cbn zeta in Hcreate.
  assert (Htk : translated_kwargs names kwargs !! "master" = None).
  { unfold translated_kwargs. apply map_lookup_filter_None. by left. }
  rewrite Htk in Hcreate.
  assert (Htrans : ∀ k v, k ∉ names → kwargs !! k = Some v →
            (<["master" := as_value
                 (mkInstance (Manager_.next_pk (db_table shared) (db (world fr)))
                             (shared_kwargs names kwargs))]>
               (<["language_code" :=
                    enforced_language_code (translated_kwargs names kwargs)
                      (_language_code (self fr)) (active_language (world fr))]>
                  (translated_kwargs names kwargs))) !! k = Some v).
  { intros k v Hk Hv.
    assert (translated_kwargs names kwargs !! k = Some v) as Hlk
      by (unfold translated_kwargs; by apply map_lookup_filter_Some).
    rewrite lookup_insert_ne by congruence.
    destruct (decide (k = "language_code")) as [->|Hne].
    - rewrite lookup_insert_eq. unfold enforced_language_code. by rewrite Hlk.
    - by rewrite lookup_insert_ne. }
  eexists _, _, _. split; [exact Hcreate|]. cbn. split_and!.
  - by rewrite <- app_assoc.
  - done.
  - done.
  - exact Htrans.
  - done.
  - intros k v Hv. unfold combine. cbn. rewrite lookup_insert_eq. cbn.
    apply lookup_union_Some_raw.
    destruct (decide (k ∈ names)) as [Hin|Hnin].
    + left. unfold shared_kwargs. by apply map_lookup_filter_Some.
    + right. split; [|by apply Htrans].
      unfold shared_kwargs. apply map_lookup_filter_None. right.
      intros v' _ Hin. by destruct Hnin.
Qed.

(** C5, amended.  Let [language_code] be a field of the translations and
    not of the shared model.  [create] raises the usage error, and leaves
    the world as it was, exactly when a master is given together with
    shared-owned arguments.  In every other call it returns, the last row it
    inserts is the translation row that the result combines, the rows that
    were there before are still there, and the [language_code] of that row
    is the value given under that keyword if there is one, else the language
    scope of the query set if it holds a true value (it is [None] until
    [language] stores a code), else the ambient active language. *)
Theorem create_language_code (kwargs : gmap string value) (fr : Frame) :
  wf mgr fr →
  "language_code" ∉ names →
  let chosen :=
    match kwargs !! "language_code" with
    | Some v => v
    | None =>
        if truthy (_language_code (self fr))
        then _language_code (self fr)
        else VStr (active_language (world fr))
    end in
  (master_with_shared_fields names kwargs →
     ∃ fr', create kwargs fr = (Raise usage_error, fr') ∧ world fr' = world fr) ∧
  (¬ master_with_shared_fields names kwargs →
     ∃ trans inserted fr',
       create kwargs fr = (Ok (combine trans), fr') ∧
       db (world fr')
         = db (world fr) ++ inserted ++ [(db_table (model (self fr)), trans)] ∧
       fields trans !! "language_code" = Some chosen).
Proof.
  intros Hwf Hlc chosen.
  destruct (create_spec mgr kwargs fr Hwf) as (fr1 & Hwf1 & Hs1 & Hcreate).
  fold shared names in Hcreate. cbn zeta in Hcreate.
  assert (Hchosen : enforced_language_code (translated_kwargs names kwargs)
                      (_language_code (self fr)) (active_language (world fr))
                    = chosen).
  { unfold enforced_language_code, chosen.
    destruct (kwargs !! "language_code") as [v|] eqn:E.
    - assert (translated_kwargs names kwargs !! "language_code" = Some v) as ->
        by (unfold translated_kwargs; by apply map_lookup_filter_Some).
      done.
    - assert (translated_kwargs names kwargs !! "language_code" = None) as ->
        by (unfold translated_kwargs; apply map_lookup_filter_None; by left).
      done. }
  rewrite Hchosen in Hcreate.
  unfold master_with_shared_fields.
  destruct (translated_kwargs names kwargs !! "master") as [m|].
  - destruct (size (shared_kwargs names kwargs) =? 0)%nat eqn:Hsize; cbn in Hcreate.
    + apply Nat.eqb_eq, map_size_empty_iff in Hsize. split.
      * by intros [_ Hne].
      * intros _. eexists _, [], _. split; [exact Hcreate|]. cbn.
        split; [reflexivity|]. by rewrite lookup_insert_eq.
    + apply Nat.eqb_neq in Hsize. rewrite map_size_empty_iff in Hsize. split.
      * intros _. exists fr1. split; [exact Hcreate|]. by destruct Hs1.
      * intros Hno. destruct Hno. by split.
  - split.
    + by intros [[m Hm] _].
    + intros _. eexists _, [_], _. split; [exact Hcreate|]. cbn.
      split; [by rewrite <- app_assoc|]. rewrite lookup_insert_ne by done.
      by rewrite lookup_insert_eq.
Qed.

End CreateClaims.


(** [create] with a shared and a translated field, on an empty database. *)
Lemma create_without_master_witness :
  let fr := Demo.frame0 Demo.Normal Demo.NormalTranslation in
  ∃ row trans fr',
    TranslationMixin.create kwargs_shared_and_translated fr
      = (Ok (combine trans), fr') ∧
    db (world fr') = [("app_normal", row); ("app_normal_translation", trans)] ∧
    fields row !! "shared_field" = Some (VStr "x") ∧
    fields trans !! "master" = Some (as_value row) ∧
    attributes (combine trans) !! "shared_field" = Some (VStr "x") ∧
    attributes (combine trans) !! "translated_field" = Some (VStr "y").
Proof.
  intros fr.
  destruct (create_without_master (mkManager Demo.Normal)
              kwargs_shared_and_translated fr
              (get_query_set_wf Demo.Normal Demo.NormalTranslation Demo.world0)
              eq_refl)
    as (row & trans & fr' & Hcreate & Hdb & Hrow & Htrans & _ & _ & Hexposed).
  exists row, trans, fr'. split; [exact Hcreate|]. split; [exact Hdb|].
  split_and!.
  - rewrite Hrow. vm_compute. reflexivity.
  - rewrite Htrans. apply lookup_insert_eq.
  - apply Hexposed. reflexivity.
  - apply Hexposed. reflexivity.
Defined.

(** C5, as stated, fails when the shared model has a field
    [language_code] of its own.  On [Page], with the ambient language [en]
    and no scope set, [create(title="Hallo", language_code="de")] gives the
    code to the shared row, and the translation row gets [en]. *)
Lemma create_language_code_counterexample :
  kwargs_title_de !! "language_code" = Some (VStr "de") ∧
  ∃ row trans fr',
    TranslationMixin.create kwargs_title_de (Demo.frame0 Demo.Page Demo.PageTranslation)
      = (Ok (combine trans), fr') ∧
    db (world fr') = [("app_page", row); ("app_page_translation", trans)] ∧
    fields row !! "language_code" = Some (VStr "de") ∧
    fields trans !! "language_code" = Some (VStr "en").
Proof.
  split; [reflexivity|].
  set (row := mkInstance 1 {[ "language_code" := VStr "de" ]}).
  exists row,
         (mkInstance 1 {[ "title" := VStr "Hallo"; "language_code" := VStr "en";
                          "master" := as_value row ]}).
  eexists. split_and!; [vm_compute; reflexivity|reflexivity..].
Qed.

(** [create] on the sample model: the code given wins over the scope, the
    scope wins over the ambient language, the ambient language is the last
    resort; and a master with a shared field is refused. *)
Lemma create_language_code_witness :
  let fr := Demo.frame0 Demo.Normal Demo.NormalTranslation in
  ("language_code" ∉ get_all_field_names Demo.Normal) ∧
  (∃ trans fr',
     TranslationMixin.create kwargs_translated_de scoped_frame
       = (Ok (combine trans), fr') ∧
     fields trans !! "language_code" = Some (VStr "de")) ∧
  (∃ trans fr',
     TranslationMixin.create kwargs_translated_de fr = (Ok (combine trans), fr') ∧
     fields trans !! "language_code" = Some (VStr "de")) ∧
  (∃ trans fr',
     TranslationMixin.create kwargs_shared_and_translated scoped_frame
       = (Ok (combine trans), fr') ∧
     fields trans !! "language_code" = Some (VStr "de")) ∧
  (∃ trans fr',
     TranslationMixin.create kwargs_shared_and_translated fr
       = (Ok (combine trans), fr') ∧
     fields trans !! "language_code" = Some (VStr "en")) ∧
  (∃ fr',
     TranslationMixin.create kwargs_master_and_shared fr = (Raise usage_error, fr') ∧
     world fr' = world fr).
Proof.
  intros fr.
  assert (Hlc : "language_code" ∉ get_all_field_names (manager_model (mkManager Demo.Normal)))
    by by_computation.
  assert (Hwf : wf (mkManager Demo.Normal) fr) by apply get_query_set_wf.
  assert (Hwfs : wf (mkManager Demo.Normal) scoped_frame)
    by (constructor; cbn; [done|done|done]).
  assert (Hfree : ∀ kwargs : gmap string value,
            kwargs !! "master" = None →
            ¬ master_with_shared_fields (get_all_field_names Demo.Normal) kwargs).
  { intros kwargs Hnone [[m Hm] _].
    apply map_lookup_filter_Some in Hm as [Hm _]. congruence. }
  split; [exact Hlc|]. split_and!.
  - destruct (proj2 (create_language_code (mkManager Demo.Normal)
                       kwargs_translated_de scoped_frame Hwfs Hlc)
                    (Hfree kwargs_translated_de eq_refl))
      as (trans & inserted & fr' & Hcreate & _ & Hchosen).
    exists trans, fr'. split; [exact Hcreate|exact Hchosen].
  - destruct (proj2 (create_language_code (mkManager Demo.Normal)
                       kwargs_translated_de fr Hwf Hlc)
                    (Hfree kwargs_translated_de eq_refl))
      as (trans & inserted & fr' & Hcreate & _ & Hchosen).
    exists trans, fr'. split; [exact Hcreate|exact Hchosen].
  - destruct (proj2 (create_language_code (mkManager Demo.Normal)
                       kwargs_shared_and_translated scoped_frame Hwfs Hlc)
                    (Hfree kwargs_shared_and_translated eq_refl))
      as (trans & inserted & fr' & Hcreate & _ & Hchosen).
    exists trans, fr'. split; [exact Hcreate|exact Hchosen].
  - destruct (proj2 (create_language_code (mkManager Demo.Normal)
                       kwargs_shared_and_translated fr Hwf Hlc)
                    (Hfree kwargs_shared_and_translated eq_refl))
      as (trans & inserted & fr' & Hcreate & _ & Hchosen).
    exists trans, fr'. split; [exact Hcreate|exact Hchosen].
  - refine (proj1 (create_language_code (mkManager Demo.Normal)
                     kwargs_master_and_shared fr Hwf Hlc) _).
    split.
    + exists (as_value sample_shared). apply map_lookup_filter_Some.
      split; [reflexivity|by_computation].
    + intros Hempty.
      match type of Hempty with
      | ?kw = _ => assert (kw !! "shared_field" = Some (VStr "x")) as Hlk
      end.
      { apply map_lookup_filter_Some. split; [reflexivity|by_computation]. }
      rewrite Hempty in Hlk. by rewrite lookup_empty in Hlk.
Defined.

(** *** Translating keyword arguments and filter expressions *)



(** The dictionary built by inserting [f key := value] for each item. *)
Lemma foldl_insert_lookup (f : string → string) (t0 : string)
      (l : list (string * value)) :
  ∀ acc : gmap string value,
    NoDup l.*1 →
    (∀ k v, (k, v) ∈ l → f k = f t0 → k = t0) →
    foldl (fun (acc : gmap string value) kv => <[f kv.1 := kv.2]> acc) acc l !! f t0
      = match (list_to_map l : gmap string value) !! t0 with
        | Some v => Some v
        | None => acc !! f t0
        end.
Proof.
  induction l as [|[k v] l IH]; intros acc Hnd Hinj; [done|].
  apply NoDup_cons in Hnd as [Hk Hnd]. cbn [foldl].
  rewrite IH; [|done|intros k' v' Hin; apply (Hinj k' v'); set_solver].
  rewrite list_to_map_cons. cbn [fst snd].
  destruct (decide (k = t0)) as [->|Hne].
  - rewrite lookup_insert_eq.
    rewrite (not_elem_of_list_to_map_1 _ _ Hk). by rewrite lookup_insert_eq.
  - rewrite (lookup_insert_ne _ k t0) by done.
    destruct (list_to_map l !! t0); [done|]. cbn.
    rewrite lookup_insert_ne; [done|].
    intros Heq. apply Hne. apply (Hinj k v); [set_solver|done].
Qed.

Section TranslateFacts.
Context `{orm : ORM}.
Import TranslationMixin.

Variable mgr : Manager.
Let shared := manager_model mgr.

Lemma translate_kwargs_loop (l : list (string * value)) :
  ∀ (acc : gmap string value) fr, wf mgr fr →
    ∃ fr',
      foldM (fun (newkwargs : gmap string value) '(key, value) =>
               key' ← field_translator_get key;
               mret (<[key' := value]> newkwargs))
            acc l fr
        = (Ok (foldl (fun (acc : gmap string value) kv =>
                        <[resolve shared kv.1 := kv.2]> acc) acc l), fr') ∧
      wf mgr fr' ∧ same_but_translator fr fr'.
Proof.
  induction l as [|[k v] l IH]; intros acc fr Hwf.
  - exists fr. auto using same_but_translator_refl.
  - cbn [foldM foldl].
    destruct (field_translator_get_spec mgr k fr Hwf) as (fr1 & Hget & Hwf1 & Hs1).
    rewrite bind_run, (bind_ok _ _ _ _ _ Hget). unfold mret at 1. unfold ST_ret.
    destruct (IH (<[resolve shared k := v]> acc) fr1 Hwf1) as (fr' & Hrun & Hwf' & Hs').
    exists fr'. split; [exact Hrun|]. eauto using same_but_translator_trans.
Qed.

(** [_recurse_q] keeps the receiver well formed whether it returns or
    raises. *)
Lemma _recurse_q_fuel_preserves (fuel : nat) :
  ∀ q fr r fr', wf mgr fr → _recurse_q_fuel fuel q fr = (r, fr') →
                wf mgr fr' ∧ same_but_translator fr fr'.
Proof.
  induction fuel as [|fuel IH]; intros q fr r fr' Hwf Hrun.
  { injection Hrun as <- <-. auto using same_but_translator_refl. }
  cbn [_recurse_q_fuel] in Hrun.
  match type of Hrun with context [foldM ?b [] _] => set (body := b) in Hrun end.
  assert (Hloop : ∀ cs acc fr0 r0 fr0', wf mgr fr0 →
            foldM body acc cs fr0 = (r0, fr0') →
            wf mgr fr0' ∧ same_but_translator fr0 fr0').
  { induction cs as [|ch cs IHcs]; intros acc fr0 r0 fr0' Hwf0 Hfold.
    - injection Hfold as <- <-. auto using same_but_translator_refl.
    - cbn [foldM] in Hfold. rewrite bind_run in Hfold.
      assert (∀ r1 fr1, body acc ch fr0 = (r1, fr1) →
                wf mgr fr1 ∧ same_but_translator fr0 fr1) as Hbody.
      { subst body. intros r1 fr1. destruct ch as [rm|c|k v]; cbn beta iota.
        - intros [= <- <-]. auto using same_but_translator_refl.
        - rewrite bind_run.
          destruct (_recurse_q_fuel fuel c fr0) as [[qa|ea] fra] eqn:Ea;
            destruct (IH _ _ _ _ Hwf0 Ea) as [Hwfa Hsa].
          + rewrite bind_run.
            destruct (_recurse_q_fuel fuel qa fra) as [[qb|eb] frb] eqn:Eb;
              destruct (IH _ _ _ _ Hwfa Eb) as [Hwfb Hsb];
              intros [= <- <-]; eauto using same_but_translator_trans.
          + intros [= <- <-]. auto.
        - destruct (field_translator_get_spec mgr k fr0 Hwf0) as (fra & Ha & Hwfa & Hsa).
          rewrite (bind_ok _ _ _ _ _ Ha). intros [= <- <-]. auto. }
      destruct (body acc ch fr0) as [[a1|e1] fr1] eqn:E1;
        destruct (Hbody _ _ eq_refl) as [Hwf1 Hs1].
      + destruct (IHcs _ _ _ _ Hwf1 Hfold). eauto using same_but_translator_trans.
      + injection Hfold as <- <-. auto. }
  rewrite bind_run in Hrun.
  destruct (foldM body [] (children q) fr) as [[cs'|e] fr1] eqn:E;
    destruct (Hloop _ _ _ _ _ Hwf E) as [Hwf1 Hs1];
    injection Hrun as <- <-; auto.
Qed.

Lemma translate_args_loop (args : list Q) :
  ∀ (acc : list Q) fr r fr', wf mgr fr →
    foldM (fun newargs q => q' ← _recurse_q q; mret (newargs ++ [q'])) acc args fr
      = (r, fr') →
    wf mgr fr' ∧ same_but_translator fr fr'.
Proof.
  induction args as [|q args IH]; intros acc fr r fr' Hwf Hrun.
  - injection Hrun as <- <-. auto using same_but_translator_refl.
  - cbn [foldM] in Hrun. rewrite !bind_run in Hrun.
    unfold _recurse_q in Hrun at 1. rewrite bind_run in Hrun.
    unfold get_world in Hrun at 1.
    destruct (_recurse_q_fuel (recursion_limit (world fr)) q fr) as [[q'|e] fr1] eqn:E;
      destruct (_recurse_q_fuel_preserves _ _ _ _ _ Hwf E) as [Hwf1 Hs1].
    + unfold mret at 1 in Hrun. unfold ST_ret in Hrun.
      destruct (IH _ _ _ _ Hwf1 Hrun). eauto using same_but_translator_trans.
    + injection Hrun as <- <-. auto.
Qed.

(** When [_translate] returns, the keyword arguments it hands back are the
    given ones under resolved keys, and the receiver is still well
    formed. *)
Lemma _translate_returns args (kwargs : gmap string value) fr newargs newkwargs fr' :
  wf mgr fr →
  _translate args kwargs fr = (Ok (newargs, newkwargs), fr') →
  newkwargs = foldl (fun (acc : gmap string value) kv =>
                       <[resolve shared kv.1 := kv.2]> acc) ∅ (map_to_list kwargs) ∧
  wf mgr fr' ∧ same_but_translator fr fr'.
Proof.
  intros Hwf Hrun. unfold _translate in Hrun.
  destruct (translate_kwargs_loop (map_to_list kwargs) ∅ fr Hwf)
    as (fr1 & Hkw & Hwf1 & Hs1).
  rewrite (bind_ok _ _ _ _ _ Hkw) in Hrun. rewrite bind_run in Hrun.
  match type of Hrun with
  | context [foldM ?b [] args fr1] =>
      destruct (foldM b [] args fr1) as [[na|e] fr2] eqn:E
  end; [|discriminate Hrun].
  destruct (translate_args_loop _ _ _ _ _ Hwf1 E) as [Hwf2 Hs2].
  injection Hrun as <- <- <-. eauto using same_but_translator_trans.
Qed.


End TranslateFacts.

(** *** Language scope and get *)

Section GetFacts.
Context `{orm : ORM}.
Import TranslationMixin.

Variable mgr : Manager.
Let shared := manager_model mgr.

(** The base [filter] clones the receiver through [_clone], so the result
    keeps the receiver's language scope; its query is the clone's with the
    predicates added. *)
Lemma QuerySet_filter_spec args (kwargs : gmap string value) fr :
  (QuerySet_filter args kwargs fr).2 = fr ∧
  ∀ qs', (QuerySet_filter args kwargs fr).1 = Ok qs' →
    _language_code qs' = _language_code (self fr) ∧
    _field_translator qs' = _field_translator (self fr) ∧
    _real_manager qs' = _real_manager (self fr) ∧
    add_q (query (QuerySet_clone (self fr) "TranslationMixin" false ∅)) args kwargs
      = Ok (query qs').
Proof.
  unfold QuerySet_filter, _clone. unfold_monad. cbn.
  destruct (add_q _ args kwargs) as [q|e]; cbn; split; try done.
  by intros qs' [= <-].
Qed.


(** The query sets that [filter] and [language] hand back are well formed
    again: the invariant travels along a chain of calls. *)
Lemma filter_wf args (kwargs : gmap string value) fr qs fr' :
  wf mgr fr → filter args kwargs fr = (Ok qs, fr') →
  wf mgr fr' ∧ wf mgr (mkFrame qs (world fr')).
Proof.
  intros Hwf Hrun. unfold filter in Hrun. rewrite bind_run in Hrun.
  destruct (_translate args kwargs fr) as [[[na nk]|e] fr1] eqn:E; [|done].
  destruct (_translate_returns mgr _ _ _ _ _ _ Hwf E) as (_ & Hwf1 & _).
  destruct (QuerySet_filter_spec na nk fr1) as [Hfr Hres].
  rewrite Hrun in Hfr, Hres. cbn in Hfr, Hres. subst fr'.
  split; [done|].
  destruct (Hres qs eq_refl) as (_ & Hft & Hrm & _).
  unfold QuerySet_filter, _clone in Hrun. unfold_monad. cbn in Hrun.
  destruct (add_q _ na nk) as [q|e]; [|done]. injection Hrun as <-.
  destruct Hwf1 as [H1 H2 H3]. by constructor.
Qed.

Lemma language_wf (v : value) fr qs fr' :
  wf mgr fr → language v fr = (Ok qs, fr') →
  wf mgr fr' ∧ wf mgr (mkFrame qs (world fr')).
Proof.
  intros Hwf Hrun. unfold language in Hrun.
  rewrite bind_run in Hrun.
  assert (∃ lc, (if truthy v then mret v else get_language) fr = (Ok lc, fr))
    as [lc Hlc].
  { unfold get_language. unfold_monad. destruct (truthy v); eauto. }
  rewrite Hlc in Hrun. unfold get_self at 1 in Hrun. rewrite bind_run in Hrun.
  unfold set_self at 1 in Hrun. rewrite bind_run in Hrun. cbn [self world] in Hrun.
  apply filter_wf in Hrun; [done|].
  destruct Hwf as [H1 H2 H3]. by constructor.
Qed.







End GetFacts.

Lemma get_runs_lookup `{orm : ORM} args (kwargs : gmap string value) fr :
  TranslationMixin.get args kwargs fr =
    ('(qs, newargs, newkwargs) ← get_lookup args kwargs;
     trans ← lift_read (QuerySet_get qs newargs newkwargs);
     mret (combine trans)) fr.
Proof.
  unfold TranslationMixin.get, get_lookup.
  unfold mbind, ST_bind, mret, ST_ret.
  destruct (TranslationMixin._translate args kwargs fr) as [[[na nk]|e] fr1]; [|done].
  destruct (TranslationMixin.QuerySet_select_related ["master"] fr1)
    as [[qs|e] fr2]; [|done].
  destruct (nk !! "language_code") as [v|].
  - destruct (call_on qs (TranslationMixin.language v) fr2) as [[qs'|e] fr3]; done.
  - unfold lift_result.
    destruct (TranslationMixin.language_code_found qs) as [[|]|e]; [done| |done].
    destruct (call_on qs (TranslationMixin.language VNone) fr2) as [[qs'|e] fr3]; done.
Qed.



(** ** Further properties of the code *)

(** *** The translator's cache and the lazily built attributes *)

(** X1: [FieldTranslator.get] keeps what it answers.  After a call the key
    is in the cache with the answer, asking again gives the same answer and
    leaves the translator as it is, entries cached before are still there,
    and the tuple of shared names is untouched. *)
Theorem FieldTranslator_get_caches (ft : FieldTranslator.t) (key : string) :
  let v := (FieldTranslator.get ft key).1 in
  let ft' := (FieldTranslator.get ft key).2 in
  FieldTranslator.cache ft' !! key = Some v ∧
  FieldTranslator.get ft' key = (v, ft') ∧
  (∀ k w, FieldTranslator.cache ft !! k = Some w →
          FieldTranslator.cache ft' !! k = Some w) ∧
  FieldTranslator.shared_fields ft' = FieldTranslator.shared_fields ft.
Proof.
  unfold FieldTranslator.get.
  destruct (FieldTranslator.cache ft !! key) as [v|] eqn:E; cbn.
  - rewrite E. by split_and!.
  - rewrite lookup_insert_eq. split_and!; [done|done| |done].
    intros k w Hk. rewrite lookup_insert_ne; [done|]. intros ->. congruence.
Qed.

Section LazyAttributes.
Import TranslationMixin.

(** X2: the first read of [field_translator] on a query set wired to the
    manager [mgr] allocates one translator, built from the shared model's
    field names followed by [pk] and with an empty cache, at a reference
    that was free, so that the translators already in the store stay as
    they are; the query set remembers the reference, and the next read
    answers it again without allocating. *)
Theorem field_translator_is_built_once (mgr : Manager) (fr : Frame) :
  _real_manager (self fr) = Some mgr →
  _field_translator (self fr) = None →
  ∃ l,
    let ft := FieldTranslator.mk
                (get_all_field_names (manager_model mgr) ++ ["pk"])
                (get_all_field_names (model (self fr))) ∅ in
    let fr' := mkFrame (set_field_translator (self fr) (Some l))
                       (set_translators (world fr)
                          (<[l := ft]> (translators (world fr)))) in
    field_translator fr = (Ok l, fr') ∧
    translators (world fr) !! l = None ∧
    (∀ l' ft', translators (world fr) !! l' = Some ft' →
               translators (world fr') !! l' = Some ft') ∧
    field_translator fr' = (Ok l, fr').
Proof.
  intros Hrm Hft. exists (fresh (dom (translators (world fr)))).
  assert (Hfresh : translators (world fr) !! fresh (dom (translators (world fr))) = None).
  { apply not_elem_of_dom, is_fresh. }
  split_and!.
  - unfold field_translator, new_FieldTranslator, shared_model, real_manager.
    unfold_monad. cbn. rewrite Hft, Hrm. reflexivity.
  - exact Hfresh.
  - intros l' ft' Hl'. cbn. rewrite lookup_insert_ne; [done|].
    intros <-. congruence.
  - unfold field_translator. unfold_monad. reflexivity.
Qed.

(** X3: [shared_local_field_names] answers the field names of the shared
    model and caches them on the query set; the world is not touched, and a
    second read answers the cached list and changes nothing.  A list that is
    already cached is answered as it is, whatever the model says. *)
Theorem shared_local_field_names_caches (fr : Frame) :
  (∀ mgr, _real_manager (self fr) = Some mgr →
          _local_field_names (self fr) = None →
          let names := get_all_field_names (manager_model mgr) in
          let fr' := mkFrame (set_local_field_names (self fr) (Some names))
                             (world fr) in
          shared_local_field_names fr = (Ok names, fr') ∧
          shared_local_field_names fr' = (Ok names, fr')) ∧
  (∀ cached, _local_field_names (self fr) = Some cached →
             shared_local_field_names fr = (Ok cached, fr)).
Proof.
  split.
  - intros mgr Hrm Hnone names fr'. split.
    + unfold shared_local_field_names, shared_model, real_manager.
      unfold_monad. cbn. rewrite Hnone, Hrm. reflexivity.
    + unfold shared_local_field_names. unfold_monad. reflexivity.
  - intros cached Hc. unfold shared_local_field_names. unfold_monad.
    cbn. by rewrite Hc.
Qed.

(** X4: a query set that was built without the manager of the shared model
    cannot resolve anything.  [create] raises [AttributeError] whatever its
    arguments and inserts nothing, and [filter] with at least one keyword
    raises [AttributeError] as well; receiver and world stay as they were. *)
Theorem unwired_query_set_raises `{orm : ORM}
    (kwargs : gmap string value) (fr : Frame) :
  _real_manager (self fr) = None →
  _local_field_names (self fr) = None →
  _field_translator (self fr) = None →
  create kwargs fr = (Raise AttributeError, fr) ∧
  (kwargs ≠ ∅ → ∀ args, filter args kwargs fr = (Raise AttributeError, fr)).
Proof.
  intros Hrm Hnames Hft.
  assert (Hreal : real_manager fr = (Raise AttributeError, fr)).
  { unfold real_manager. unfold_monad. cbn. by rewrite Hrm. }
  assert (Hslfn : shared_local_field_names fr = (Raise AttributeError, fr)).
  { unfold shared_local_field_names, shared_model, real_manager.
    unfold_monad. cbn. by rewrite Hnames, Hrm. }
  assert (Hget : ∀ key, field_translator_get key fr = (Raise AttributeError, fr)).
  { intros key.
    unfold field_translator_get, field_translator, new_FieldTranslator,
      shared_model, real_manager.
    unfold_monad. cbn. by rewrite Hft, Hrm. }
  split.
  - unfold create. rewrite bind_run.
    destruct (map_to_list kwargs) as [|[k v] l] eqn:El.
    + cbn [fmap list_fmap foldM]. unfold mret at 1. unfold ST_ret at 1.
      cbn iota beta. rewrite lookup_empty. rewrite bind_run.
      assert (∃ lc, (s ← get_self;
                     if truthy (_language_code s)
                     then mret (<["language_code" := _language_code s]> (∅ : gmap string value))
                     else lang ← get_language;
                          mret (<["language_code" := lang]> ∅)) fr
                    = (Ok (<["language_code" := lc]> ∅), fr)) as [lc ->].
      { unfold get_language. unfold_monad. cbn.
        destruct (truthy (_language_code (self fr))); eauto. }
      rewrite lookup_insert_ne by done. rewrite lookup_empty.
      rewrite !bind_run, Hreal. reflexivity.
    + cbn [fmap list_fmap foldM]. rewrite !bind_run, Hslfn. reflexivity.
  - intros Hne args. unfold filter, _translate. rewrite !bind_run.
    destruct (map_to_list kwargs) as [|[k v] l] eqn:El.
    { apply map_to_list_empty_iff in El. done. }
    cbn [foldM]. rewrite !bind_run, Hget. reflexivity.
Qed.

End LazyAttributes.

(** A first read on the sample query set allocates the translator of
    [Normal]. *)
Lemma field_translator_is_built_once_witness :
  ∃ l, (TranslationMixin.field_translator sample_frame).1 = Ok l ∧
       translators (world sample_frame) !! l = None.
Proof.
  destruct (field_translator_is_built_once (mkManager Demo.Normal) sample_frame
              eq_refl eq_refl) as (l & Hrun & Hfree & _).
  exists l. cbn zeta in Hrun. rewrite Hrun. split; [reflexivity|exact Hfree].
Defined.

(** The first read on the sample query set caches the names of [Normal]. *)
Lemma shared_local_field_names_caches_witness :
  (TranslationMixin.shared_local_field_names sample_frame).1
    = Ok ["id"; "shared_field"; "translations"].
Proof.
  rewrite (proj1 (proj1 (shared_local_field_names_caches sample_frame)
                    (mkManager Demo.Normal) eq_refl eq_refl)).
  reflexivity.
Defined.

(** On a query set made without a manager, [create] and a keyword [filter]
    raise. *)
Lemma unwired_query_set_raises_witness :
  TranslationMixin.create kwargs_shared_and_translated unwired_frame
    = (Raise AttributeError, unwired_frame) ∧
  TranslationMixin.filter (orm := Demo.orm) [] kwargs_shared_and_translated unwired_frame
    = (Raise AttributeError, unwired_frame).
Proof.
  destruct (unwired_query_set_raises (orm := Demo.orm) kwargs_shared_and_translated
              unwired_frame eq_refl eq_refl eq_refl) as [Hcreate Hfilter].
  split; [exact Hcreate|]. apply Hfilter.
  intros Hempty. apply (f_equal (fun m : gmap string value => m !! "shared_field")) in Hempty.
  vm_compute in Hempty. discriminate Hempty.
Defined.

(** *** What [_translate], [filter] and [order_by] compute *)

Lemma foldl_insert_origin (f : string → string) (l : list (string * value)) :
  ∀ (acc : gmap string value) k' v,
    foldl (fun (acc : gmap string value) kv => <[f kv.1 := kv.2]> acc) acc l !! k'
      = Some v →
    acc !! k' = Some v ∨ ∃ k, (k, v) ∈ l ∧ f k = k'.
Proof.
  induction l as [|[k w] l IH]; intros acc k' v Hlk; [by left|].
  cbn [foldl] in Hlk. apply IH in Hlk as [Hacc|(k0 & Hin & Hk0)].
  - cbn in Hacc. apply lookup_insert_Some in Hacc as [[<- <-]|[_ Hacc]].
    + right. exists k. split; [set_solver|done].
    + by left.
  - right. exists k0. split; [set_solver|done].
Qed.

Lemma foldl_insert_covers (f : string → string) (l : list (string * value)) :
  ∀ (acc : gmap string value) k',
    (is_Some (acc !! k') ∨ ∃ k v, (k, v) ∈ l ∧ f k = k') →
    is_Some (foldl (fun (acc : gmap string value) kv => <[f kv.1 := kv.2]> acc)
                   acc l !! k').
Proof.
  induction l as [|[k w] l IH]; intros acc k' Hk'.
  - destruct Hk' as [?|(k & v & Hin & _)]; [done|]. by apply elem_of_nil in Hin.
  - cbn [foldl]. apply IH. cbn.
    destruct (decide (f k = k')) as [<-|Hne].
    + left. rewrite lookup_insert_eq. eauto.
    + destruct Hk' as [Hacc|(k0 & v & Hin & Hk0)].
      * left. by rewrite lookup_insert_ne.
      * apply elem_of_cons in Hin as [[= -> ->]|Hin]; [done|]. right. eauto.
Qed.

Section TranslateSpec.
Context `{orm : ORM}.
Import TranslationMixin.

Variable mgr : Manager.
Let shared := manager_model mgr.

Lemma translate_args_loop_spec (args : list Q) :
  ∀ (acc : list Q) fr, wf mgr fr →
    Forall (fun q => (depth q ≤ recursion_limit (world fr))%nat) args →
    ∃ fr',
      foldM (fun newargs q => q' ← _recurse_q q; mret (newargs ++ [q'])) acc args fr
        = (Ok (acc ++ map (rewrite_n (resolve shared) 1) args), fr') ∧
      wf mgr fr' ∧ same_but_translator fr fr'.
Proof.
  induction args as [|q args IH]; intros acc fr Hwf Hd.
  - exists fr. cbn. rewrite app_nil_r. auto using same_but_translator_refl.
  - apply Forall_cons in Hd as [Hq Hd]. cbn [foldM].
    destruct (_recurse_q_spec mgr q fr Hwf Hq) as (fr1 & Hrun & Hwf1 & Hs1 & _).
    fold shared in Hrun.
    rewrite !bind_run, Hrun. unfold mret at 1. unfold ST_ret at 1.
    destruct (IH (acc ++ [rewrite_n (resolve shared) 1 q]) fr1 Hwf1)
      as (fr' & Hloop & Hwf' & Hs').
    { rewrite (sbt_recursion_limit _ _ Hs1). exact Hd. }
    exists fr'. rewrite Hloop, <- app_assoc.
    eauto using same_but_translator_trans.
Qed.

Lemma _translate_fieldnames_loop (names : list string) :
  ∀ (acc : list string) fr, wf mgr fr →
    ∃ fr',
      foldM (fun newnames name =>
               name' ← field_translator_get name; mret (newnames ++ [name']))
            acc names fr
        = (Ok (acc ++ map (resolve shared) names), fr') ∧
      wf mgr fr' ∧ same_but_translator fr fr'.
Proof.
  induction names as [|name names IH]; intros acc fr Hwf.
  - exists fr. cbn. rewrite app_nil_r. auto using same_but_translator_refl.
  - cbn [foldM].
    destruct (field_translator_get_spec mgr name fr Hwf) as (fr1 & Hget & Hwf1 & Hs1).
    fold shared in Hget.
    rewrite !bind_run, Hget. unfold mret at 1. unfold ST_ret at 1.
    destruct (IH (acc ++ [resolve shared name]) fr1 Hwf1) as (fr' & Hloop & Hwf' & Hs').
    exists fr'. rewrite Hloop, <- app_assoc.
    eauto using same_but_translator_trans.
Qed.

(** X5: on a well-formed query set and filter expressions that fit the
    stack and in which no [Q] object occurs twice (so that rewriting them in
    place is rewriting them as trees), [_translate] returns.  The
    expressions come back rewritten one by one, in order.  Every entry of the new keyword map is a given value
    under the resolved form of its key; every given key has an entry under
    its resolved form; and a given value is found under its resolved key
    whenever no other given key resolves to the same name. *)
Theorem _translate_spec (args : list Q) (kwargs : gmap string value) (fr : Frame) :
  wf mgr fr →
  Forall (fun q => (depth q ≤ recursion_limit (world fr))%nat) args →
  NoDup (flat_map nodes args) →
  ∃ newkwargs fr',
    _translate args kwargs fr
      = (Ok (map (rewrite_n (resolve shared) 1) args, newkwargs), fr') ∧
    wf mgr fr' ∧
    (∀ k' v, newkwargs !! k' = Some v →
             ∃ k, kwargs !! k = Some v ∧ resolve shared k = k') ∧
    (∀ k, is_Some (kwargs !! k) → is_Some (newkwargs !! resolve shared k)) ∧
    (∀ k v, kwargs !! k = Some v →
            (∀ k2, is_Some (kwargs !! k2) →
                   resolve shared k2 = resolve shared k → k2 = k) →
            newkwargs !! resolve shared k = Some v).
Proof.
  intros Hwf Hd _. unfold _translate.
  destruct (translate_kwargs_loop mgr (map_to_list kwargs) ∅ fr Hwf)
    as (fr1 & Hkw & Hwf1 & Hs1).
  fold shared in Hkw.
  destruct (translate_args_loop_spec args [] fr1 Hwf1) as (fr2 & Hargs & Hwf2 & Hs2).
  { rewrite (sbt_recursion_limit _ _ Hs1). exact Hd. }
  eexists _, fr2. rewrite (bind_ok _ _ _ _ _ Hkw), (bind_ok _ _ _ _ _ Hargs).
  split; [reflexivity|]. split; [done|]. split_and!.
  - intros k' v Hlk.
    apply foldl_insert_origin in Hlk as [Hempty|(k & Hin & Hk)]; [done|].
    exists k. split; [|done]. by apply elem_of_map_to_list.
  - intros k [v Hv]. apply foldl_insert_covers. right.
    exists k, v. split; [|done]. by apply elem_of_map_to_list.
  - intros k v Hv Huniq.
    rewrite (foldl_insert_lookup (resolve shared) k (map_to_list kwargs) ∅
               (NoDup_fst_map_to_list kwargs)).
    + by rewrite list_to_map_to_list, Hv.
    + intros k2 v2 Hin%elem_of_map_to_list Heq. apply Huniq; [eauto|done].
Qed.

Lemma field_translator_get_self (key : string) (fr : Frame) :
  wf mgr fr →
  self (field_translator_get key fr).2 = self (field_translator fr).2.
Proof.
  intros Hwf. unfold field_translator_get.
  destruct (field_translator_spec mgr fr Hwf) as (l & fr1 & Hft & Hwf1 & _ & Hl).
  rewrite bind_run, Hft. cbn [snd]. rewrite bind_run. unfold get_world at 1.
  destruct (wf_field_translator _ _ Hwf1 _ Hl) as (ft & -> & _).
  destruct (FieldTranslator.get ft key). reflexivity.
Qed.

Lemma QuerySet_filter_self args (kwargs : gmap string value) (fr1 fr2 : Frame) :
  self fr1 = self fr2 →
  (QuerySet_filter args kwargs fr1).1 = (QuerySet_filter args kwargs fr2).1.
Proof.
  intros Hself. unfold QuerySet_filter, _clone. unfold_monad. cbn.
  rewrite Hself. by destruct (add_q _ args kwargs).
Qed.

Lemma filter_single_keyword (key : string) (v : value) (fr : Frame) :
  wf mgr fr →
  (filter [] {[ key := v ]} fr).1
    = (QuerySet_filter [] {[ resolve shared key := v ]}
         (field_translator_get key fr).2).1.
Proof.
  intros Hwf. unfold filter, _translate. rewrite map_to_list_singleton.
  cbn [foldM].
  destruct (field_translator_get_spec mgr key fr Hwf) as (fr1 & Hget & _).
  fold shared in Hget. rewrite !bind_run, Hget.
  unfold mret, ST_ret. cbn. by rewrite insert_empty.
Qed.

(** X6: filtering on a shared field under its bare name is filtering on
    [master__] and the name: for a shared field name [f] such that no shared
    name is a prefix of [master__f], [filter(f=v)] and [filter(master__f=v)]
    hand back the same query set. *)
Theorem filter_shared_name_is_master_name (f : string) (v : value) (fr : Frame) :
  wf mgr fr →
  f ∈ get_all_field_names shared ++ ["pk"] →
  (∀ p, p ∈ get_all_field_names shared ++ ["pk"] →
        String.prefix p ("master__" +:+ f) = false) →
  (filter [] {[ f := v ]} fr).1 = (filter [] {[ "master__" +:+ f := v ]} fr).1.
Proof.
  intros Hwf Hf Hnone.
  rewrite !filter_single_keyword by done.
  assert (resolve shared f = "master__" +:+ f) as ->.
  { unfold resolve. by rewrite startswith_member. }
  assert (resolve shared ("master__" +:+ f) = "master__" +:+ f) as ->.
  { unfold resolve. by rewrite (proj2 (startswith_false _ _) Hnone). }
  apply QuerySet_filter_self.
  by rewrite !field_translator_get_self.
Qed.

(** X7: [order_by] resolves the given names one by one, keeping their
    number and order, and orders a clone by them; the clone keeps the
    language scope and the wiring of the receiver, and the database is not
    touched. *)
Theorem order_by_spec (field_names : list string) (fr : Frame) :
  wf mgr fr →
  ∃ cloned fr',
    order_by field_names fr = (Ok cloned, fr') ∧
    query cloned
      = add_ordering (query (QuerySet_clone (self fr') "TranslationMixin" false ∅))
                     (map (resolve shared) field_names) ∧
    _language_code cloned = _language_code (self fr) ∧
    wf mgr (mkFrame cloned (world fr')) ∧
    db (world fr') = db (world fr).
Proof.
  intros Hwf. unfold order_by, _translate_fieldnames.
  destruct (_translate_fieldnames_loop field_names [] fr Hwf)
    as (fr1 & Hloop & Hwf1 & Hs1).
  rewrite bind_run, Hloop. cbn [app].
  unfold QuerySet_order_by, _clone. unfold_monad. cbn.
  eexists _, fr1. split; [reflexivity|]. cbn.
  destruct Hs1. destruct Hwf1 as [H1 H2 H3].
  split_and!; first [done | by constructor].
Qed.

End TranslateSpec.

(** A non-empty name that does not begin with [-] is no prefix of a name
    that does. *)
Lemma not_prefix_of_descending (p f : string) :
  p ≠ EmptyString → String.prefix "-" p = false →
  String.prefix p ("-" +:+ f) = false.
Proof.
  intros Hne Hp. destruct p as [|c rest]; [done|].
  cbn [String.prefix String.append] in *.
  match type of Hp with
  | context [Ascii.ascii_dec ?d c] =>
      destruct (Ascii.ascii_dec d c) as [Heq|Hneq]
  end.
  - by destruct rest.
  - simpl.
    match goal with
    | |- context [Ascii.ascii_dec c ?d] =>
        destruct (Ascii.ascii_dec c d) as [->|]; [done|reflexivity]
    end.
Qed.

(** X8: the descending marker defeats the resolver.  When every field name
    of the shared model is non-empty and does not begin with [-], a name
    given as [-f] is passed on as it is, also when [f] is a shared field,
    where the bare [f] is resolved to [master__f]. *)
Theorem descending_name_is_not_resolved (mgr : Manager) (f : string) (fr : Frame) :
  wf mgr fr →
  (∀ p, p ∈ get_all_field_names (manager_model mgr) →
        p ≠ EmptyString ∧ String.prefix "-" p = false) →
  f ∈ get_all_field_names (manager_model mgr) →
  (TranslationMixin._translate_fieldnames ["-" +:+ f; f] fr).1
    = Ok ["-" +:+ f; "master__" +:+ f].
Proof.
  intros Hwf Hnames Hf. unfold TranslationMixin._translate_fieldnames.
  destruct (_translate_fieldnames_loop mgr ["-" +:+ f; f] [] fr Hwf)
    as (fr1 & -> & _).
  cbn. do 2 f_equal.
  - unfold resolve. rewrite (proj2 (startswith_false _ _)); [done|].
    intros p [Hp|Hp%list_elem_of_singleton]%elem_of_app.
    + destruct (Hnames p Hp). by apply not_prefix_of_descending.
    + subst p. reflexivity.
  - f_equal. unfold resolve. rewrite startswith_member; [done|].
    apply elem_of_app. by left.
Qed.

Lemma sample_frame_wf : wf (mkManager Demo.Normal) sample_frame.
Proof. apply get_query_set_wf. Qed.

Lemma Normal_no_prefix_of (key : string) :
  Forall (fun p => String.prefix p key = false)
         (get_all_field_names Demo.Normal ++ ["pk"]) →
  ∀ p, p ∈ get_all_field_names (manager_model (mkManager Demo.Normal)) ++ ["pk"] →
       String.prefix p key = false.
Proof. intros H. by apply Forall_forall. Qed.

(** Translating a filter on the sample query set. *)
Lemma _translate_spec_witness :
  NoDup (flat_map nodes args_filter) ∧
  ∃ newkwargs fr',
    TranslationMixin._translate args_filter kwargs_filter sample_frame
      = (Ok (map (rewrite_n (resolve Demo.Normal) 1) args_filter, newkwargs), fr') ∧
    is_Some (newkwargs !! "master__shared_field") ∧
    is_Some (newkwargs !! "translated_field__contains").
Proof.
  assert (Hnodup : NoDup (flat_map nodes args_filter))
    by (cbn; apply NoDup_singleton).
  split; [exact Hnodup|].
  destruct (_translate_spec (mkManager Demo.Normal) args_filter kwargs_filter
              sample_frame sample_frame_wf)
    as (nk & fr' & Hrun & _ & _ & Hcovers & _).
  { apply Forall_cons. split; [cbn; lia|by apply Forall_nil]. }
  { exact Hnodup. }
  exists nk, fr'. split; [exact Hrun|]. split.
  - apply (Hcovers "shared_field"). by apply (bool_decide_unpack _).
  - apply (Hcovers "translated_field__contains"). by apply (bool_decide_unpack _).
Defined.

(** On [Normal], filtering on [shared_field] and on [master__shared_field]
    agree. *)
Lemma filter_shared_name_is_master_name_witness :
  (TranslationMixin.filter (orm := Demo.orm) []
     {[ "shared_field" := VStr "s" ]} sample_frame).1
  = (TranslationMixin.filter (orm := Demo.orm) []
       {[ "master__shared_field" := VStr "s" ]} sample_frame).1.
Proof.
  apply (filter_shared_name_is_master_name (orm := Demo.orm) (mkManager Demo.Normal)
           "shared_field" (VStr "s") sample_frame sample_frame_wf).
  - by_computation.
  - apply Normal_no_prefix_of. vm_compute. repeat constructor.
Defined.

(** Ordering the sample query set by a shared and a translated field. *)
Lemma order_by_spec_witness :
  ∃ cloned fr',
    TranslationMixin.order_by (orm := Demo.orm)
      ["shared_field"; "translated_field"] sample_frame = (Ok cloned, fr') ∧
    ordering (query cloned) = ["master__shared_field"; "translated_field"].
Proof.
  destruct (order_by_spec (orm := Demo.orm) (mkManager Demo.Normal)
              ["shared_field"; "translated_field"] sample_frame sample_frame_wf)
    as (cloned & fr' & Hrun & Hq & _).
  exists cloned, fr'. split; [exact Hrun|]. rewrite Hq. reflexivity.
Defined.

(** On [Normal], [-shared_field] stays and [shared_field] is resolved. *)
Lemma descending_name_is_not_resolved_witness :
  (TranslationMixin._translate_fieldnames ["-shared_field"; "shared_field"]
     sample_frame).1
  = Ok ["-shared_field"; "master__shared_field"].
Proof.
  apply (descending_name_is_not_resolved (mkManager Demo.Normal) "shared_field"
           sample_frame sample_frame_wf).
  - apply Forall_forall. repeat constructor; discriminate.
  - by_computation.
Defined.

(** *** Language scope, receiver and database *)

Section ScopeFacts.
Context `{orm : ORM}.
Import TranslationMixin.

Variable mgr : Manager.
Let shared := manager_model mgr.

Lemma field_translator_get_stable (key : string) (l : loc) (fr : Frame) :
  wf mgr fr → _field_translator (self fr) = Some l →
  _field_translator (self (field_translator_get key fr).2) = Some l.
Proof.
  intros Hwf Hl. rewrite (field_translator_get_self mgr) by done.
  unfold field_translator. unfold_monad. cbn. by rewrite Hl.
Qed.

(** [language(v)] in general: the code is stored on the receiver, and the
    filter is on the resolved form of [language_code]. *)
Lemma language_run (v : value) (fr : Frame) :
  wf mgr fr →
  let lc := if truthy v then v else VStr (active_language (world fr)) in
  let fr0 := mkFrame (set_language_code (self fr) lc) (world fr) in
  language v fr
    = QuerySet_filter [] {[ resolve shared "language_code" := lc ]}
        (field_translator_get "language_code" fr0).2 ∧
  wf mgr fr0.
Proof.
  intros Hwf lc fr0.
  assert (Hwf0 : wf mgr fr0).
  { destruct Hwf as [H1 H2 H3]. by constructor. }
  split; [|done]. unfold language.
  assert (Hlc : (if truthy v then mret v else get_language) fr = (Ok lc, fr)).
  { subst lc. unfold get_language. unfold_monad. by destruct (truthy v). }
  rewrite (bind_ok _ _ _ _ _ Hlc). unfold get_self at 1. rewrite bind_run.
  unfold set_self at 1. rewrite bind_run. cbn [self world]. fold fr0.
  unfold filter, _translate. rewrite map_to_list_singleton. cbn [foldM].
  destruct (field_translator_get_spec mgr "language_code" fr0 Hwf0)
    as (fr1 & Hget & _).
  fold shared in Hget. rewrite !bind_run, Hget.
  unfold mret, ST_ret. cbn. by rewrite insert_empty.
Qed.

Lemma language_outcome (v : value) (fr : Frame) :
  wf mgr fr →
  let lc := if truthy v then v else VStr (active_language (world fr)) in
  let out := language v fr in
  _language_code (self out.2) = lc ∧
  wf mgr out.2 ∧
  db (world out.2) = db (world fr) ∧
  active_language (world out.2) = active_language (world fr) ∧
  (∀ qs, out.1 = Ok qs →
     _language_code qs = lc ∧
     add_q (query (QuerySet_clone (self out.2) "TranslationMixin" false ∅))
           [] {[ resolve shared "language_code" := lc ]} = Ok (query qs)).
Proof.
  intros Hwf lc out.
  destruct (language_run v fr Hwf) as [Hrun Hwf0]. fold lc in Hrun, Hwf0.
  set (fr0 := mkFrame (set_language_code (self fr) lc) (world fr)) in *.
  destruct (field_translator_get_spec mgr "language_code" fr0 Hwf0)
    as (fr1 & Hget & Hwf1 & Hs1).
  rewrite Hget in Hrun. cbn [snd] in Hrun.
  destruct (QuerySet_filter_spec [] {[ resolve shared "language_code" := lc ]} fr1)
    as [Hfr Hres].
  subst out. rewrite Hrun, Hfr. destruct Hs1. cbn in *.
  split_and!; try done.
  intros qs Hqs. destruct (Hres qs Hqs) as (H1 & _ & _ & H4).
  split; [congruence|done].
Qed.

(** X9: [language(v)] re-scopes the receiver itself, not only the query set
    it returns.  With [lc] the code given, or the ambient language when none
    or a false value is given: afterwards the receiver's scope is [lc]; a
    query set that comes back has scope [lc] and the query of a base clone
    of the receiver with one predicate added, under the resolved form of
    [language_code]; the database is untouched. *)
Theorem language_rescopes_receiver (v : value) (fr : Frame) :
  wf mgr fr →
  let lc := if truthy v then v else VStr (active_language (world fr)) in
  let out := language v fr in
  _language_code (self out.2) = lc ∧
  wf mgr out.2 ∧
  db (world out.2) = db (world fr) ∧
  (∀ qs, out.1 = Ok qs →
     _language_code qs = lc ∧
     add_q (query (QuerySet_clone (self out.2) "TranslationMixin" false ∅))
           [] {[ resolve shared "language_code" := lc ]} = Ok (query qs)).
Proof.
  intros Hwf lc out.
  destruct (language_outcome v fr Hwf) as (H1 & H2 & H3 & _ & H5).
  by split_and!.
Qed.

Lemma _translate_preserves args (kwargs : gmap string value) fr r fr' :
  wf mgr fr → _translate args kwargs fr = (r, fr') →
  wf mgr fr' ∧ same_but_translator fr fr'.
Proof.
  intros Hwf Hrun. unfold _translate in Hrun.
  destruct (translate_kwargs_loop mgr (map_to_list kwargs) ∅ fr Hwf)
    as (fr1 & Hkw & Hwf1 & Hs1).
  rewrite (bind_ok _ _ _ _ _ Hkw) in Hrun. rewrite bind_run in Hrun.
  match type of Hrun with
  | context [foldM ?b [] args fr1] =>
      destruct (foldM b [] args fr1) as [[na|e] fr2] eqn:E
  end;
    destruct (translate_args_loop mgr _ _ _ _ _ Hwf1 E) as [Hwf2 Hs2];
    injection Hrun as <- <-; eauto using same_but_translator_trans.
Qed.

(** After [language] has run on a clone of the receiver, the receiver is
    still well formed in the world that is left. *)
Lemma call_on_clone_language (v : value) (fr : Frame) (qs : QuerySet) :
  wf mgr fr →
  _field_translator qs = _field_translator (self fr) →
  _real_manager qs = _real_manager (self fr) →
  _local_field_names qs = _local_field_names (self fr) →
  let fr' := (call_on qs (language v) fr).2 in
  wf mgr fr' ∧ same_but_translator fr fr'.
Proof.
  intros Hwf Hft Hrm Hln fr'.
  assert (Hwfq : wf mgr (mkFrame qs (world fr))).
  { destruct Hwf as [H1 H2 H3]. constructor; cbn.
    - congruence.
    - rewrite Hln. apply H2.
    - rewrite Hft. apply H3. }
  destruct (language_run v _ Hwfq) as [Hrun Hwf0]. cbn [self world] in Hrun, Hwf0.
  set (lc := if truthy v then v else VStr (active_language (world fr))) in *.
  set (fr0 := mkFrame (set_language_code qs lc) (world fr)) in *.
  destruct (field_translator_get_spec mgr "language_code" fr0 Hwf0)
    as (fr1 & Hget & Hwf1 & Hs1).
  assert (Hstable : ∀ l, _field_translator (self fr0) = Some l →
                         _field_translator (self fr1) = Some l).
  { intros l Hl.
    pose proof (field_translator_get_stable "language_code" l fr0 Hwf0 Hl) as H.
    by rewrite Hget in H. }
  rewrite Hget in Hrun. cbn [snd] in Hrun.
  destruct (QuerySet_filter_spec [] {[ resolve shared "language_code" := lc ]} fr1)
    as [Hfr _].
  subst fr'. unfold call_on. rewrite Hrun.
  destruct (QuerySet_filter [] {[ resolve shared "language_code" := lc ]} fr1)
    as [r fr2]. cbn in Hfr. subst fr2. cbn.
  destruct Hs1. destruct Hwf as [H1 H2 H3]. cbn in *. split.
  - constructor; cbn; [done|done|].
    intros l Hl. apply (wf_field_translator _ _ Hwf1). apply Hstable.
    cbn. congruence.
  - by constructor.
Qed.

(** X11: [filter] and [get] leave the receiver and the database alone,
    whatever their outcome.  The receiver keeps its model, query, cached
    names, manager and language scope (the scope is set on a clone, not on
    the receiver); the rows, the ambient language and the stack allowance
    are as before; and the receiver is still well formed.  Only the
    translator and its cache may have been filled in. *)
Theorem filter_and_get_leave_receiver
    (args : list Q) (kwargs : gmap string value) (fr : Frame) :
  wf mgr fr →
  (wf mgr (filter args kwargs fr).2 ∧
   same_but_translator fr (filter args kwargs fr).2) ∧
  (wf mgr (get args kwargs fr).2 ∧
   same_but_translator fr (get args kwargs fr).2).
Proof.
  intros Hwf. split.
  - enough (∃ fr', (filter args kwargs fr).2 = fr' ∧
                   wf mgr fr' ∧ same_but_translator fr fr') as (fr' & -> & ?);
      [done|].
    unfold filter. rewrite bind_run.
    destruct (_translate args kwargs fr) as [[[na nk]|e] fr1] eqn:E;
      destruct (_translate_preserves _ _ _ _ _ Hwf E) as [Hwf1 Hs1];
      [|by exists fr1].
    exists fr1. by rewrite (proj1 (QuerySet_filter_spec na nk fr1)).
  - enough (∃ fr', (get args kwargs fr).2 = fr' ∧
                   wf mgr fr' ∧ same_but_translator fr fr') as (fr' & -> & ?);
      [done|].
    unfold get. rewrite bind_run.
    destruct (_translate args kwargs fr) as [[[na nk]|e] fr1] eqn:E;
      destruct (_translate_preserves _ _ _ _ _ Hwf E) as [Hwf1 Hs1];
      [|by exists fr1].
    rewrite bind_run.
    assert (Hsr : ∃ qs, QuerySet_select_related ["master"] fr1 = (Ok qs, fr1) ∧
              _field_translator qs = _field_translator (self fr1) ∧
              _real_manager qs = _real_manager (self fr1) ∧
              _local_field_names qs = _local_field_names (self fr1)).
    { unfold QuerySet_select_related, _clone. unfold_monad. cbn. eauto. }
    destruct Hsr as (qs & -> & Hft & Hrm & Hln).
    assert (Hlang : ∀ v, wf mgr (call_on qs (language v) fr1).2 ∧
                         same_but_translator fr (call_on qs (language v) fr1).2).
    { intros v. destruct (call_on_clone_language v fr1 qs Hwf1 Hft Hrm Hln).
      eauto using same_but_translator_trans. }
    unfold mbind, ST_bind, mret, ST_ret, lift_read.
    destruct (nk !! "language_code") as [v|].
    + specialize (Hlang v).
      destruct (call_on qs (language v) fr1) as [[qs'|e] fr2]; [|by exists fr2].
      exists fr2.
      by destruct (QuerySet_get qs' na (base.delete "language_code" nk) (world fr2)).
    + unfold lift_result.
      destruct (language_code_found qs) as [[|]|e]; [| |by exists fr1].
      * exists fr1. by destruct (QuerySet_get qs na nk (world fr1)).
      * specialize (Hlang VNone).
        destruct (call_on qs (language VNone) fr1) as [[qs'|e] fr2]; [|by exists fr2].
        exists fr2. by destruct (QuerySet_get qs' na nk (world fr2)).
Qed.

End ScopeFacts.

(** *** More on create *)

Section CreateMore.
Context `{orm : ORM}.
Import TranslationMixin.

(** X10: from the manager to a row.  When [language_code] is a field of the
    translations only, and [language(v)] on the manager of a model hands back
    a query set, then [create] on that query set, given neither a
    [language_code] nor a [master], inserts a shared row and a translation
    row in the language [v], or in the ambient language if [v] is none or a
    false value. *)
Theorem manager_language_then_create
    (shared translations : Model) (v : value) (kwargs : gmap string value)
    (w w' : World) (qs : QuerySet) :
  "language_code" ∉ get_all_field_names shared →
  kwargs !! "language_code" = None →
  kwargs !! "master" = None →
  TranslationManager.language
    (TranslationManager.contribute_to_class shared translations) v w = (Ok qs, w') →
  let lc := if truthy v then v else VStr (active_language w) in
  ∃ row trans fr',
    create kwargs (mkFrame qs w') = (Ok (combine trans), fr') ∧
    db (world fr')
      = db w ++ [(db_table shared, row); (db_table (model qs), trans)] ∧
    fields trans !! "language_code" = Some lc.
Proof.
  intros Hlc Hkl Hkm Hlang lc. unfold TranslationManager.language in Hlang.
  set (fr := mkFrame (TranslationManager.get_query_set
                        (TranslationManager.contribute_to_class shared translations)) w)
    in Hlang.
  assert (Hwf : wf (mkManager shared) fr) by apply get_query_set_wf.
  destruct (language_outcome (mkManager shared) v fr Hwf)
    as (_ & _ & Hdb & Hamb & Hqs).
  destruct (language v fr) as [r s] eqn:E. injection Hlang as -> <-.
  destruct (language_wf (mkManager shared) v fr qs s Hwf E) as [_ Hwfq].
  destruct (Hqs qs eq_refl) as [Hscope _]. cbn in Hdb, Hamb, Hscope.
  destruct (create_spec (mkManager shared) kwargs _ Hwfq)
    as (fr1 & _ & _ & Hcreate).
  cbn zeta in Hcreate. cbn [self world manager_model] in Hcreate.
  assert (Htm : translated_kwargs (get_all_field_names shared) kwargs !! "master" = None).
  { unfold translated_kwargs. apply map_lookup_filter_None. by left. }
  assert (Htl : translated_kwargs (get_all_field_names shared) kwargs
                  !! "language_code" = None).
  { unfold translated_kwargs. apply map_lookup_filter_None. by left. }
  rewrite Htm in Hcreate.
  eexists _, _, _. split; [exact Hcreate|]. cbn. rewrite Hdb. split.
  - by rewrite <- app_assoc.
  - rewrite lookup_insert_ne by done. rewrite lookup_insert_eq.
    unfold enforced_language_code. rewrite Htl, Hscope, Hamb. fold lc.
    f_equal. subst lc. destruct (truthy v) eqn:Ev; [by rewrite Ev|].
    by destruct (truthy (VStr (active_language w))).
Qed.

Variable mgr : Manager.
Let shared := manager_model mgr.
Let names := get_all_field_names shared.

(** X12 below needs: a name that is a prefix of [a] followed by [k] is a
    prefix of [a], or has [a] as a prefix. *)
Lemma prefix_append_cases (a : string) :
  ∀ p k, String.prefix p (a +:+ k) = true →
         String.prefix p a = true ∨ String.prefix a p = true.
Proof.
  induction a as [|c a IH]; intros p k Hp.
  - right. by destruct p.
  - destruct p as [|d p]; [by left|].
    change (String c a +:+ k) with (String c (a +:+ k)) in Hp. cbn in *.
    destruct (Ascii.ascii_dec d c) as [->|Hne]; [|done].
    destruct (Ascii.ascii_dec c c); [|done]. by apply (IH p k).
Qed.

(** X12: when every field name of the shared model is neither a prefix of
    [master__] nor begins with [master__], resolving a resolved name changes
    nothing, and then [_recurse_q] computes, on every tree that fits the
    stack, the tree in which each leaf key is resolved once. *)
Theorem single_pass_when_no_name_meets_master (q : Q) (fr : Frame) :
  (∀ p, p ∈ names → String.prefix p "master__" = false ∧
                    String.prefix "master__" p = false) →
  wf mgr fr →
  (depth q ≤ recursion_limit (world fr))%nat →
  (∀ k, resolve shared (resolve shared k) = resolve shared k) ∧
  (_recurse_q q fr).1 = Ok (rewrite_once (resolve shared) q).
Proof.
  intros Hnames Hwf Hd.
  assert (Hidem : ∀ k, resolve shared (resolve shared k) = resolve shared k).
  { intros k. unfold resolve at 2 3.
    destruct (FieldTranslator.startswith k (get_all_field_names shared ++ ["pk"]))
      eqn:Ek.
    - unfold resolve. rewrite (proj2 (startswith_false _ _)); [done|].
      intros p Hp. destruct (String.prefix p ("master__" +:+ k)) eqn:E; [|done].
      apply prefix_append_cases in E.
      apply elem_of_app in Hp as [Hp|Hp%list_elem_of_singleton].
      + destruct (Hnames p Hp) as [H1 H2]. destruct E; congruence.
      + subst p. by destruct E.
    - unfold resolve. by rewrite Ek. }
  split; [exact Hidem|].
  by apply (_recurse_q_idempotent_case mgr).
Qed.

(** X13: [pk] sits on different sides in [create] and in the resolver.
    When no field of the shared model is called [pk], [create] treats a
    given [pk] as owned by the translations: the shared row does not carry
    it and the translation row does; the resolver, on the same query set,
    sends [pk] to the shared side as [master__pk]. *)
Theorem create_puts_pk_on_the_translation
    (kwargs : gmap string value) (v : value) (fr : Frame) :
  wf mgr fr →
  "pk" ∉ names →
  kwargs !! "pk" = Some v →
  kwargs !! "master" = None →
  (∃ row trans fr',
     create kwargs fr = (Ok (combine trans), fr') ∧
     db (world fr')
       = db (world fr) ++ [(db_table shared, row);
                           (db_table (model (self fr)), trans)] ∧
     fields row !! "pk" = None ∧
     fields trans !! "pk" = Some v) ∧
  (field_translator_get "pk" fr).1 = Ok "master__pk".
Proof.
  intros Hwf Hpk Hv Hm. split.
  - destruct (create_spec mgr kwargs fr Hwf) as (fr1 & _ & _ & Hcreate).
    fold shared names in Hcreate. cbn zeta in Hcreate.
    assert (Htm : translated_kwargs names kwargs !! "master" = None).
    { unfold translated_kwargs. apply map_lookup_filter_None. by left. }
    rewrite Htm in Hcreate.
    eexists _, _, _. split; [exact Hcreate|]. cbn. split_and!.
    + by rewrite <- app_assoc.
    + unfold shared_kwargs. apply map_lookup_filter_None. right.
      intros v' _ Hin. by destruct Hpk.
    + rewrite !lookup_insert_ne by done.
      unfold translated_kwargs. by apply map_lookup_filter_Some.
  - destruct (field_translator_get_spec mgr "pk" fr Hwf) as (fr1 & -> & _).
    cbn. f_equal. unfold resolve. rewrite startswith_member; [done|].
    apply elem_of_app. right. by apply list_elem_of_singleton.
Qed.

(** X14: [create] only ever appends.  Whatever the outcome on a well-formed
    query set, the rows that were there stay in place and in order, at most
    two rows are added, the store of translators is untouched, and the
    receiver keeps its query, its translator, its manager and its language
    scope. *)
Theorem create_only_appends (kwargs : gmap string value) (fr : Frame) :
  wf mgr fr →
  let out := create kwargs fr in
  ∃ new,
    db (world out.2) = db (world fr) ++ new ∧
    (length new ≤ 2)%nat ∧
    translators (world out.2) = translators (world fr) ∧
    active_language (world out.2) = active_language (world fr) ∧
    query (self out.2) = query (self fr) ∧
    _field_translator (self out.2) = _field_translator (self fr) ∧
    _real_manager (self out.2) = _real_manager (self fr) ∧
    _language_code (self out.2) = _language_code (self fr).
Proof.
  intros Hwf out.
  destruct (create_spec mgr kwargs fr Hwf) as (fr1 & _ & Hs & Hcreate).
  fold shared names in Hcreate. cbn zeta in Hcreate. subst out.
  rewrite Hcreate. destruct Hs as [Hm Hq Hft Hrm Hlc Hw].
  destruct (translated_kwargs names kwargs !! "master") as [m|].
  - destruct (negb (size (shared_kwargs names kwargs) =? 0)%nat); cbn.
    + exists []. rewrite Hw, app_nil_r. split_and!; auto.
    + eexists [_]. split_and!; auto.
  - cbn. eexists [_; _]. rewrite <- app_assoc. split_and!; auto.
Qed.

End CreateMore.

(** Choosing German on the sample query set re-scopes it. *)
Lemma language_rescopes_receiver_witness :
  _language_code
    (self (TranslationMixin.language (orm := Demo.orm) (VStr "de") sample_frame).2)
  = VStr "de".
Proof.
  exact (proj1 (language_rescopes_receiver (orm := Demo.orm) (mkManager Demo.Normal)
                  (VStr "de") sample_frame sample_frame_wf)).
Defined.

(** [objects.language("de").create(...)] on an empty database. *)
Lemma manager_language_then_create_witness :
  ∃ qs w' trans fr',
    TranslationManager.language (orm := Demo.orm)
      (Demo.objects Demo.Normal Demo.NormalTranslation) (VStr "de") Demo.world0
      = (Ok qs, w') ∧
    TranslationMixin.create kwargs_shared_and_translated (mkFrame qs w')
      = (Ok (combine trans), fr') ∧
    fields trans !! "language_code" = Some (VStr "de").
Proof.
  destruct (TranslationManager.language (orm := Demo.orm)
              (Demo.objects Demo.Normal Demo.NormalTranslation) (VStr "de")
              Demo.world0) as [[qs|e] w'] eqn:E.
  - destruct (manager_language_then_create (orm := Demo.orm)
                Demo.Normal Demo.NormalTranslation (VStr "de")
                kwargs_shared_and_translated Demo.world0 w' qs)
      as (row & trans & fr' & Hcreate & _ & Hlc); [by_computation|done|done|exact E|].
    exists qs, w', trans, fr'. split; [reflexivity|]. split; [exact Hcreate|exact Hlc].
  - exfalso. vm_compute in E. discriminate E.
Defined.

(** [get] on the sample query set leaves its scope unset and the rows as
    they are. *)
Lemma filter_and_get_leave_receiver_witness :
  let out := TranslationMixin.get (orm := Demo.orm) []
               {[ "language_code" := VStr "de" ]} sample_frame in
  _language_code (self out.2) = VNone ∧ db (world out.2) = db sample_world.
Proof.
  destruct (proj2 (filter_and_get_leave_receiver (orm := Demo.orm)
                     (mkManager Demo.Normal) [] {[ "language_code" := VStr "de" ]}
                     sample_frame sample_frame_wf)) as [_ Hs].
  split; [exact (sbt_language_code _ _ Hs)|exact (sbt_db _ _ Hs)].
Defined.

(** No field name of [Normal] meets [master__]; the nested leaf is resolved
    to [master__shared_field]. *)
Lemma single_pass_when_no_name_meets_master_witness :
  (TranslationMixin._recurse_q nested_shared sample_frame).1
  = Ok (rewrite_once (resolve Demo.Normal) nested_shared).
Proof.
  refine (proj2 (single_pass_when_no_name_meets_master (mkManager Demo.Normal)
                   nested_shared sample_frame _ sample_frame_wf _)).
  - apply Forall_forall. repeat constructor.
  - cbn. lia.
Defined.

(** [create(pk=7, translated_field="y")] on an empty database. *)
Lemma create_puts_pk_on_the_translation_witness :
  let fr := Demo.frame0 Demo.Normal Demo.NormalTranslation in
  (∃ row trans fr',
     TranslationMixin.create kwargs_with_pk fr = (Ok (combine trans), fr') ∧
     fields row !! "pk" = None ∧
     fields trans !! "pk" = Some (VInt 7)) ∧
  (TranslationMixin.field_translator_get "pk" fr).1 = Ok "master__pk".
Proof.
  intros fr.
  destruct (create_puts_pk_on_the_translation (mkManager Demo.Normal)
              kwargs_with_pk (VInt 7) fr
              (get_query_set_wf Demo.Normal Demo.NormalTranslation Demo.world0))
    as [(row & trans & fr' & Hcreate & _ & Hrow & Htrans) Hresolve];
    [by_computation|reflexivity|reflexivity|].
  split; [|exact Hresolve].
  exists row, trans, fr'. split; [exact Hcreate|]. split; [exact Hrow|exact Htrans].
Defined.

(** [create] on the sample rows adds at most two. *)
Lemma create_only_appends_witness :
  ∃ new,
    db (world (TranslationMixin.create kwargs_shared_and_translated sample_frame).2)
      = db sample_world ++ new ∧
    (length new ≤ 2)%nat.
Proof.
  destruct (create_only_appends (mkManager Demo.Normal) kwargs_shared_and_translated
              sample_frame sample_frame_wf) as (new & Hdb & Hlen & _).
  exists new. split; [exact Hdb|exact Hlen].
Defined.

(** *** More on get and filter *)

Section LookupFacts.
Context `{orm : ORM}.
Import TranslationMixin.

(** X15: the base lookup is never handed a [language_code] keyword.
    Whatever the ORM, [get] has the same outcome and leaves the same state
    when the base lookup is replaced by one that drops such a keyword from
    its arguments first: a given one has been taken out before the lookup
    (or has been renamed by the resolver). *)
Theorem get_never_passes_language_code
    (args : list Q) (kwargs : gmap string value) (fr : Frame) :
  get (orm := strip_language_code orm) args kwargs fr
    = get (orm := orm) args kwargs fr.
Proof.
  unfold get. unfold mbind, ST_bind, mret, ST_ret.
  destruct (_translate args kwargs fr) as [[[na nk]|e] fr1]; [|done].
  change (QuerySet_select_related (orm := strip_language_code orm))
    with (QuerySet_select_related (orm := orm)).
  destruct (QuerySet_select_related ["master"] fr1) as [[qs|e] fr2]; [|done].
  change (language (orm := strip_language_code orm)) with (language (orm := orm)).
  unfold lift_read, lift_result.
  destruct (nk !! "language_code") as [v|] eqn:E.
  - destruct (call_on qs (language v) fr2) as [[qs'|e] fr3]; [|done].
    cbn [QuerySet_get strip_language_code]. by rewrite delete_delete_eq.
  - destruct (language_code_found qs) as [[|]|e]; [| |done].
    + cbn [QuerySet_get strip_language_code]. by rewrite delete_id.
    + destruct (call_on qs (language VNone) fr2) as [[qs'|e] fr3]; [|done].
      cbn [QuerySet_get strip_language_code]. by rewrite delete_id.
Qed.

(** X16: filters chain.  A query set that [filter] hands back has the
    language scope and the manager of the receiver and shares its
    translator, so names resolved before stay cached for it; and it is well
    formed again, ready for the next call. *)
Theorem filter_keeps_scope_and_translator
    (mgr : Manager) (args : list Q) (kwargs : gmap string value) (fr : Frame) :
  wf mgr fr →
  ∀ qs, (filter args kwargs fr).1 = Ok qs →
    _language_code qs = _language_code (self fr) ∧
    _real_manager qs = Some mgr ∧
    _field_translator qs = _field_translator (self (filter args kwargs fr).2) ∧
    wf mgr (mkFrame qs (world (filter args kwargs fr).2)).
Proof.
  intros Hwf qs Hqs.
  destruct (filter args kwargs fr) as [r fr'] eqn:Ef. cbn in Hqs. subst r.
  destruct (filter_wf mgr _ _ _ _ _ Hwf Ef) as [Hwf' Hwfq]. cbn [snd].
  unfold filter in Ef. rewrite bind_run in Ef.
  destruct (_translate args kwargs fr) as [[[na nk]|e] fr1] eqn:E; [|done].
  destruct (_translate_preserves mgr _ _ _ _ _ Hwf E) as [Hwf1 Hs1].
  destruct (QuerySet_filter_spec na nk fr1) as [Hfr Hres].
  rewrite Ef in Hfr, Hres. cbn in Hfr, Hres. subst fr'.
  destruct (Hres qs eq_refl) as (H1 & H2 & H3 & _).
  split_and!; [|by rewrite H3, (wf_real_manager _ _ Hwf1)|done|done].
  rewrite H1. apply (sbt_language_code _ _ Hs1).
Qed.

End LookupFacts.

(** A query set filtered from the German one is still German. *)
Lemma filter_keeps_scope_and_translator_witness :
  let fr := mkFrame (set_language_code (self sample_frame) (VStr "de")) sample_world in
  ∃ qs,
    (TranslationMixin.filter (orm := Demo.orm) args_filter kwargs_filter fr).1
      = Ok qs ∧
    _language_code qs = VStr "de".
Proof.
  intros fr.
  assert (Hwf : wf (mkManager Demo.Normal) fr) by by constructor.
  destruct (TranslationMixin.filter (orm := Demo.orm) args_filter kwargs_filter fr).1
    as [qs|e] eqn:E.
  - exists qs. split; [reflexivity|].
    exact (proj1 (filter_keeps_scope_and_translator (orm := Demo.orm)
                    (mkManager Demo.Normal) args_filter kwargs_filter fr Hwf qs E)).
  - exfalso. vm_compute in E. discriminate E.
Defined.
